(** * CssDeadwood: the dead-selector elimination pipeline of [cssdeadwood.py]

    A shallow embedding of the functions of [cssdeadwood.py] and the
    properties of its two elimination stages.

    Python strings are modelled as [string] (a sequence of 8-bit characters),
    Python sets of strings as [gset string], dictionaries keyed by strings as
    [gmap string _], and a raised exception as the [Raise] case of [result].
    The libraries the program calls (cssutils, bs4, os, open) are collected
    in the class [Externals], each call a function of its arguments; a loop
    over a set visits its members in the order of [elements]; logging is not
    modelled. *)

From Stdlib Require Import Ascii String.
From Equations Require Import Equations.
From stdpp Require Import gmap strings list sorting.

#[local] Set Warnings "-clear-no-such-hyp".

Local Open Scope string_scope.
Local Open Scope list_scope.
Local Open Scope nat_scope.
Local Open Scope stdpp_scope.

(** ** Exceptions *)

Inductive exn : Type :=
| IOError (path : string)
| Exception (msg : string).

Inductive result (A : Type) : Type :=
| Ok (a : A)
| Raise (e : exn).
Arguments Ok {A} a.
Arguments Raise {A} e.

#[global] Instance result_ret : MRet result := @Ok.
#[global] Instance result_bind : MBind result := λ A B k m,
  match m with
  | Ok a => k a
  | Raise e => Raise e
  end.

(** What is left of a result once the exception itself is forgotten. *)
Definition value {A : Type} (m : result A) : option A :=
  match m with
  | Ok a => Some a
  | Raise _ => None
  end.

(** ** Character classes of the regular expressions *)

Definition in_range (lo hi c : ascii) : bool :=
  (Ascii.leb lo c && Ascii.leb c hi)%bool.

(** [[a-zA-Z0-9]] *)
Definition is_alnum (c : ascii) : bool :=
  (in_range "a" "z" c || in_range "A" "Z" c || in_range "0" "9" c)%bool.

(** [\w] of a pattern compiled without flags: [[a-zA-Z0-9_]] *)
Definition is_word (c : ascii) : bool :=
  (is_alnum c || Ascii.eqb c "_")%bool.

(** The longest prefix matched by [[a-zA-Z0-9]*], and what follows it. *)
Fixpoint alnum_prefix (s : string) : string :=
  match s with
  | String a s' => if is_alnum a then String a (alnum_prefix s') else ""
  | "" => ""
  end.

Fixpoint alnum_drop (s : string) : string :=
  match s with
  | String a s' => if is_alnum a then alnum_drop s' else s
  | "" => ""
  end.

Lemma alnum_drop_length s : String.length (alnum_drop s) ≤ String.length s.
Proof. induction s as [|a s IH]; simpl; [lia|]. destruct (is_alnum a); simpl; lia. Qed.

(** [re.compile(p + '([a-zA-Z0-9]+)').findall(s)] for a one-character prefix
    [p]: the scan goes from left to right; at a [p] followed by at least one
    alphanumeric character the greedy group is reported and the scan resumes
    after the match, anywhere else it moves on by one character. *)
Equations? findall (p : ascii) (s : string) : list string
  by wf (String.length s) lt :=
  findall p "" := [];
  findall p (String a s') :=
    if (Ascii.eqb a p && negb (String.eqb (alnum_prefix s') ""))%bool
    then alnum_prefix s' :: findall p (alnum_drop s')
    else findall p s'.
Proof.
  all: pose proof (alnum_drop_length s'); simpl; lia.
Qed.

(** [REGEX_ID = re.compile(r'\#([a-zA-Z0-9]+)')] *)
Definition REGEX_ID_findall : string → list string := findall "#".
(** [REGEX_CLASS = re.compile(r'\.([a-zA-Z0-9]+)')] *)
Definition REGEX_CLASS_findall : string → list string := findall ".".

Example findall_ex1 : REGEX_ID_findall "div#nav .item > a#x1-y" = ["nav"; "x1"].
Proof. reflexivity. Qed.
Example findall_ex2 : REGEX_CLASS_findall "a.b.c ..d #e.f_g" = ["b"; "c"; "d"; "f"].
Proof. reflexivity. Qed.

(** ** [re.search(r'\b%s\b' % word, content)]

    The words the program searches for come out of [findall], so they are
    non-empty runs of [[a-zA-Z0-9]] and the interpolated pattern is the
    literal word between two [\b] assertions.  The word is interpolated
    as it is: a word with other characters would be read as a regular
    expression of its own (and one such as [(] does not compile, so that
    [re.search] raises).  The model below covers the words of the first
    kind only, and every statement about the search is made for such
    words. *)

Definition is_word_opt (c : option ascii) : bool := from_option is_word false c.

Definition head_char (s : string) : option ascii :=
  match s with
  | String a _ => Some a
  | "" => None
  end.

(** [\b] at a position: exactly one of the character before it and the
    character after it is a word character (the ends of the text count as
    non-word). *)
Definition at_boundary (before : option ascii) (s : string) : bool :=
  xorb (is_word_opt before) (is_word_opt (head_char s)).

(** The literal [word] and then [\b], matched at the head of [s]. *)
Fixpoint match_word_b (word : string) (before : option ascii) (s : string) : bool :=
  match word with
  | "" => at_boundary before s
  | String c word' =>
      match s with
      | String a s' => (Ascii.eqb c a && match_word_b word' (Some a) s')%bool
      | "" => false
      end
  end.

(** The search tries every position of [s] from left to right. *)
Fixpoint re_search_from (word : string) (before : option ascii) (s : string) : bool :=
  ((at_boundary before s && match_word_b word before s)
   || match s with
      | String a s' => re_search_from word (Some a) s'
      | "" => false
      end)%bool.

Definition re_search_word (word content : string) : bool :=
  re_search_from word None content.

Example re_search_ex1 : re_search_word "nav" "<div id='nav'>" = true.
Proof. reflexivity. Qed.
Example re_search_ex2 : re_search_word "nav" "navbar nav_left subnav" = false.
Proof. reflexivity. Qed.
Example re_search_ex3 : re_search_word "nav" "sub-nav" = true.
Proof. reflexivity. Qed.

(** ** The helper functions of the module *)

(** The loop [for x in xs: if test(x): found.add(x)] over a fresh set. *)
Definition add_if (test : string → bool) (found : gset string) (x : string) : gset string :=
  if test x then found ∪ {[x]} else found.

(** [get_occuring_words], for words that are non-empty runs of
    [[a-zA-Z0-9]], as the two stages pass them: for such a word the search
    is the literal one above and cannot raise. *)
Definition get_occuring_words (words : gset string) (content : string) : gset string :=
  foldl (add_if (λ word, re_search_word word content)) ∅ (elements words).

(** [origins[key].append(selector)] on a [defaultdict(lambda: [])]. *)
Definition origins_append (key selector : string)
    (origins : gmap string (list string)) : gmap string (list string) :=
  <[key := default [] (origins !! key) ++ [selector]]> origins.

(** [origins[key]] read from the [defaultdict]: a missing key reads as []. *)
Definition origins_get (origins : gmap string (list string)) (key : string) : list string :=
  default [] (origins !! key).

(** One of the two inner loops of the extraction: every token found is
    added to the set and the selector is appended under the prefixed key. *)
Definition extract_tokens (p : ascii) (selector : string)
    (acc : gset string * gmap string (list string)) (tokens : list string)
    : gset string * gmap string (list string) :=
  foldl (λ '(names, origins) name,
           (names ∪ {[name]}, origins_append (String p name) selector origins))
        acc tokens.

Definition extract_step
    (acc : gset string * gset string * gmap string (list string)) (selector : string)
    : gset string * gset string * gmap string (list string) :=
  let '(ids, classes, origins) := acc in
  let '(ids, origins) :=
    extract_tokens "#" selector (ids, origins) (REGEX_ID_findall selector) in
  let '(classes, origins) :=
    extract_tokens "." selector (classes, origins) (REGEX_CLASS_findall selector) in
  (ids, classes, origins).

Definition extract_ids_and_classes_from_selectors (selectors : gset string)
    : gset string * gset string * gmap string (list string) :=
  foldl extract_step (∅, ∅, ∅) (elements selectors).

(** [sorted(s)] of a set of strings: ascending in the order of [<=] on
    strings, which compares character codes lexicographically. *)
Definition sorted (s : gset string) : list string :=
  merge_sort String.le (elements s).

Example extract_ex :
  extract_ids_and_classes_from_selectors {["#nav .item"; "a.item"; "div"]}
  = ({["nav"]}, {["item"]},
     {[ "#nav" := ["#nav .item"]; ".item" := ["#nav .item"; "a.item"] ]}).
Proof. vm_compute. reflexivity. Qed.

(** ** The libraries the program calls *)

(** A rule of a parsed style sheet: only [CSSStyleRule] carries selectors. *)
Inductive css_rule : Type :=
| CSSStyleRule (selectorList : list string)
| CSSOtherRule.

Class Externals : Type := {
  (** a parsed HTML document and a node of it *)
  Soup : Type;
  Tag : Type;
  (** [with open(html_file) as f: bs4.BeautifulSoup(f)] *)
  open_BeautifulSoup : string → result Soup;
  (** [soup.select(selector)] *)
  soup_select : Soup → string → result (list Tag);
  (** [open(file_name).read()] *)
  open_read : string → result string;
  (** [cssutils.parseFile(css_file).cssRules] *)
  parseFile : string → result (list css_rule);
  (** [os.path.isfile], [os.path.isdir] *)
  isfile : string → bool;
  isdir : string → bool;
  (** [os.walk(seed)]: the triples (dirpath, dirnames, filenames) *)
  walk : string → list (string * list string * list string);
  (** [os.path.join(dirpath, filename)] *)
  path_join : string → string → string;
  (** [os.path.splitext(path)[1].lower()] *)
  splitext_lower : string → string
}.

Record dom_matching_results : Type := {
  dm_unused_selectors : list string
}.

Record idclass_results : Type := {
  ic_ids : gset string;
  ic_classes : gset string;
  ic_unfindable_ids : gset string;
  ic_unfindable_classes : gset string;
  ic_unused_selectors : list string
}.

(** [results[css_file]]: the stage entries are present only when the stage ran. *)
Record css_file_results : Type := {
  r_selectors : gset string;
  r_dom_matching : option dom_matching_results;
  r_idclass_elimination : option idclass_results;
  r_unused_selectors : list string
}.

Section Program.
Context `{ext : Externals}.

Definition check_extension (extensions : option (list string)) (path : string) : bool :=
  match extensions with
  | Some exts => bool_decide (splitext_lower path ∈ exts)
  | None => true
  end.

Definition collect_files (seeds : list string) (extensions : option (list string))
    : gset string :=
  foldl (λ files seed,
           if (isfile seed && check_extension extensions seed)%bool
           then files ∪ {[seed]}
           else if isdir seed
           then foldl (λ files '(dirpath, dirnames, filenames),
                         foldl (λ files filename,
                                  let path := path_join dirpath filename in
                                  if check_extension extensions path
                                  then files ∪ {[path]} else files)
                               files filenames)
                      files (walk seed)
           else files)
        ∅ seeds.

Definition extract_css_selectors (css_file : string) : result (gset string) :=
  cssRules ← parseFile css_file;
  mret (foldl (λ selectors rule,
                 match rule with
                 | CSSStyleRule selectorList => selectors ∪ list_to_set selectorList
                 | CSSOtherRule => selectors
                 end)
              ∅ cssRules).

Definition file_get_contents (file_name : string) : result string :=
  open_read file_name.

(** The body of [try: if len(soup.select(selector)) > 0: ... except Exception]. *)
Definition selector_matches (soup : Soup) (selector : string) : bool :=
  match soup_select soup selector with
  | Ok nodes => bool_decide (0 < length nodes)
  | Raise _ => false
  end.

Definition get_matching_selectors_in_dom (selectors : gset string) (html_file : string)
    : result (gset string) :=
  soup ← open_BeautifulSoup html_file;
  mret (foldl (add_if (selector_matches soup)) ∅ (elements selectors)).

(** The loop over [html_files] of the DOM stage, on the working copy. *)
Fixpoint dom_matching_loop (unused_selectors : gset string) (html_files : list string)
    : result (gset string) :=
  match html_files with
  | [] => mret unused_selectors
  | html_file :: html_files' =>
      found_selectors ← get_matching_selectors_in_dom unused_selectors html_file;
      dom_matching_loop (unused_selectors ∖ found_selectors) html_files'
  end.

Definition _eliminate_selectors_from_dom_matching
    (selectors : gset string) (html_files : list string)
    : result (gset string * dom_matching_results) :=
  unused_selectors ← dom_matching_loop selectors html_files;
  mret (unused_selectors, {| dm_unused_selectors := sorted unused_selectors |}).

(** The four sets the scan of the source files maintains. *)
Record grep_state : Type := {
  findable_ids : gset string;
  findable_classes : gset string;
  unfindable_ids : gset string;
  unfindable_classes : gset string
}.

Fixpoint grep_loop (st : grep_state) (src_files : list string) : result grep_state :=
  match src_files with
  | [] => mret st
  | src_file :: src_files' =>
      content ← file_get_contents src_file;
      let findable_ids' :=
        findable_ids st ∪ get_occuring_words (unfindable_ids st) content in
      let unfindable_ids' := unfindable_ids st ∖ findable_ids' in
      let findable_classes' :=
        findable_classes st ∪ get_occuring_words (unfindable_classes st) content in
      let unfindable_classes' := unfindable_classes st ∖ findable_classes' in
      grep_loop {| findable_ids := findable_ids';
                   findable_classes := findable_classes';
                   unfindable_ids := unfindable_ids';
                   unfindable_classes := unfindable_classes' |} src_files'
  end.

(** [for name in names: used.update(origins[p + name])] *)
Definition update_from_origins (p : ascii) (origins : gmap string (list string))
    (used : gset string) (names : gset string) : gset string :=
  foldl (λ used name, used ∪ list_to_set (origins_get origins (String p name)))
        used (elements names).

Definition _eliminate_selectors_from_idclass_grepping
    (selectors : gset string) (src_files : list string)
    : result (gset string * idclass_results) :=
  let '(ids, classes, origins) := extract_ids_and_classes_from_selectors selectors in
  st ← grep_loop {| findable_ids := ∅; findable_classes := ∅;
                    unfindable_ids := ids; unfindable_classes := classes |} src_files;
  let used_idclass_selectors :=
    update_from_origins "." origins
      (update_from_origins "#" origins ∅ (findable_ids st)) (findable_classes st) in
  let unused_selectors := selectors ∖ used_idclass_selectors in
  mret (unused_selectors,
        {| ic_ids := ids; ic_classes := classes;
           ic_unfindable_ids := unfindable_ids st;
           ic_unfindable_classes := unfindable_classes st;
           ic_unused_selectors := sorted unused_selectors |}).

(** The body of the loop of [main] over the CSS files. *)
Definition analyse_css_file (css_file : string) (html_files src_files : gset string)
    : result css_file_results :=
  selectors ← extract_css_selectors css_file;
  let unused_selectors := selectors in
  '(unused_selectors, dom_matching) ←
    (if bool_decide (html_files ≠ ∅)
     then '(unused, data) ←
            _eliminate_selectors_from_dom_matching unused_selectors (elements html_files);
          mret (unused, Some data)
     else mret (unused_selectors, None));
  '(unused_selectors, idclass_elimination) ←
    (if bool_decide (src_files ≠ ∅)
     then '(unused, data) ←
            _eliminate_selectors_from_idclass_grepping unused_selectors (elements src_files);
          mret (unused, Some data)
     else mret (unused_selectors, None));
  mret {| r_selectors := selectors;
          r_dom_matching := dom_matching;
          r_idclass_elimination := idclass_elimination;
          r_unused_selectors := sorted unused_selectors |}.

Fixpoint main_loop (css_files : list string) (html_files src_files : gset string)
    (results : gmap string css_file_results) : result (gmap string css_file_results) :=
  match css_files with
  | [] => mret results
  | css_file :: css_files' =>
      data ← analyse_css_file css_file html_files src_files;
      main_loop css_files' html_files src_files (<[css_file := data]> results)
  end.

(** The analysis of [main], from the collection of the files to the end of
    the loop over the CSS files: [args] are the positional arguments that
    the option parser returned, and the value is the [results] dictionary
    with which the report starts.  The option parser before it, and the
    printed report and the JSON export after it, are not part of the
    model; an exception of the analysis leaves [main] before any of the
    report is written. *)
Definition main (args : list string) : result (gmap string css_file_results) :=
  let css_files := collect_files args (Some [".css"]) in
  let html_files := collect_files args (Some [".html"]) in
  let src_files := collect_files args (Some [".php"; ".py"; ".rb"; ".js"]) in
  main_loop (elements css_files) html_files src_files ∅.

End Program.

(** ** The two stages over a store of set objects

    Python sets are objects: [add], [update] and [difference_update] change
    the object in place, while [set()], [copy] and [difference] make a new
    one.  Here a set variable holds a reference into a store, and the stages
    are written again with every set operation of the source made explicit.
    The [origins] dictionary and its lists are local to the grep stage and
    stay plain values. *)

Module Store.

Abbreviation ref := nat (only parsing).
Abbreviation store := (list (gset string)) (only parsing).

(** A computation reads and changes the store and may raise. *)
Definition M (A : Type) : Type := store → result A * store.

#[global] Instance M_ret : MRet M := λ A a σ, (Ok a, σ).
#[global] Instance M_bind : MBind M := λ A B k m σ,
  match m σ with
  | (Ok a, σ') => k a σ'
  | (Raise e, σ') => (Raise e, σ')
  end.

Definition lift {A : Type} (m : result A) : M A := λ σ, (m, σ).

(** A new object: [set()], [s.copy()], [s.difference(t)]. *)
Definition alloc (s : gset string) : M ref := λ σ, (Ok (length σ), σ ++ [s]).

(** The present value of an object (a reference outside the store, which
    no program below produces, reads as the empty set). *)
Definition read (r : ref) : M (gset string) := λ σ, (Ok (default ∅ (σ !! r)), σ).

(** In-place change of an object. *)
Definition modify (r : ref) (f : gset string → gset string) : M unit :=
  λ σ, (Ok tt, alter f r σ).

Definition set_new : M ref := alloc ∅.
Definition set_copy (r : ref) : M ref := s ← read r; alloc s.
Definition set_add (r : ref) (x : string) : M unit := modify r (λ s, s ∪ {[x]}).
Definition set_update (r r' : ref) : M unit := s' ← read r'; modify r (λ s, s ∪ s').
Definition set_update_list (r : ref) (l : list string) : M unit :=
  modify r (λ s, s ∪ list_to_set l).
Definition set_difference_update (r r' : ref) : M unit :=
  s' ← read r'; modify r (λ s, s ∖ s').
Definition set_difference (r r' : ref) : M ref :=
  s ← read r; s' ← read r'; alloc (s ∖ s').

(** [for x in l: body(x)] *)
Fixpoint for_each {A : Type} (body : A → M unit) (l : list A) : M unit :=
  match l with
  | [] => mret tt
  | x :: l' => body x;; for_each body l'
  end.

(** [for x in l: acc = body(acc, x)] *)
Fixpoint for_fold {A B : Type} (body : B → A → M B) (acc : B) (l : list A) : M B :=
  match l with
  | [] => mret acc
  | x :: l' => acc' ← body acc x; for_fold body acc' l'
  end.

(** [for x in s: body(x)] over the members of a set object. *)
Definition for_members (r : ref) (body : string → M unit) : M unit :=
  s ← read r; for_each body (elements s).

(** The stage results hold the set objects themselves. *)
Record idclass_results : Type := {
  ic_ids : ref;
  ic_classes : ref;
  ic_unfindable_ids : ref;
  ic_unfindable_classes : ref;
  ic_unused_selectors : list string
}.

Section Program.
Context `{ext : Externals}.

(** [get_occuring_words] over the store, for the same words as above. *)
Definition get_occuring_words (words : ref) (content : string) : M ref :=
  found ← set_new;
  for_members words (λ word,
    if re_search_word word content then set_add found word else mret tt);;
  mret found.

Definition get_matching_selectors_in_dom (selectors : ref) (html_file : string) : M ref :=
  soup ← lift (open_BeautifulSoup html_file);
  found_selectors ← set_new;
  for_members selectors (λ selector,
    if selector_matches soup selector
    then set_add found_selectors selector else mret tt);;
  mret found_selectors.

Definition extract_ids_and_classes_from_selectors (selectors : ref)
    : M (ref * ref * gmap string (list string)) :=
  ids ← set_new;
  classes ← set_new;
  sels ← read selectors;
  origins ← for_fold (λ origins selector,
      origins ← for_fold (λ origins id,
          set_add ids id;;
          mret (origins_append (String "#" id) selector origins))
        origins (REGEX_ID_findall selector);
      for_fold (λ origins classs,
          set_add classes classs;;
          mret (origins_append (String "." classs) selector origins))
        origins (REGEX_CLASS_findall selector))
    (∅ : gmap string (list string)) (elements sels);
  mret (ids, classes, origins).

Definition _eliminate_selectors_from_dom_matching
    (selectors : ref) (html_files : list string)
    : M (ref * dom_matching_results) :=
  unused_selectors ← set_copy selectors;
  for_each (λ html_file,
      found_selectors ← get_matching_selectors_in_dom unused_selectors html_file;
      set_difference_update unused_selectors found_selectors)
    html_files;;
  unused ← read unused_selectors;
  mret (unused_selectors, {| dm_unused_selectors := sorted unused |}).

Definition _eliminate_selectors_from_idclass_grepping
    (selectors : ref) (src_files : list string)
    : M (ref * idclass_results) :=
  '(ids, classes, origins) ← extract_ids_and_classes_from_selectors selectors;
  findable_ids ← set_new;
  findable_classes ← set_new;
  unfindable_ids ← set_copy ids;
  unfindable_classes ← set_copy classes;
  for_each (λ src_file,
      content ← lift (file_get_contents src_file);
      found ← get_occuring_words unfindable_ids content;
      set_update findable_ids found;;
      set_difference_update unfindable_ids findable_ids;;
      found ← get_occuring_words unfindable_classes content;
      set_update findable_classes found;;
      set_difference_update unfindable_classes findable_classes)
    src_files;;
  used_idclass_selectors ← set_new;
  for_members findable_ids (λ id,
    set_update_list used_idclass_selectors (origins_get origins (String "#" id)));;
  for_members findable_classes (λ classs,
    set_update_list used_idclass_selectors (origins_get origins (String "." classs)));;
  unused_selectors ← set_difference selectors used_idclass_selectors;
  unused ← read unused_selectors;
  mret (unused_selectors,
        {| ic_ids := ids; ic_classes := classes;
           ic_unfindable_ids := unfindable_ids;
           ic_unfindable_classes := unfindable_classes;
           ic_unused_selectors := sorted unused |}).

End Program.

End Store.


(** ** A small site to run the program on *)

Module Demo.

Definition known_files : list string :=
  ["site.css"; "bad.css"; "index.html"; "app.js"].

(** The part of a file name from its last dot on. *)
Fixpoint last_dot_suffix (s : string) : option string :=
  match s with
  | "" => None
  | String a s' =>
      match last_dot_suffix s' with
      | Some e => Some e
      | None => if Ascii.eqb a "." then Some s else None
      end
  end.

(** [site.css] holds two style rules and a comment, [bad.css] cannot be
    read; [index.html] has one element, with id [a], and its evaluator
    rejects the selector [:has(>x)]; [app.js] mentions [b] and [nav]. *)
Definition site : Externals := {|
  Soup := nat;
  Tag := nat;
  open_BeautifulSoup path :=
    if String.eqb path "index.html" then Ok 0 else Raise (IOError path);
  soup_select soup selector :=
    if String.eqb selector ":has(>x)" then Raise (Exception "SelectorError")
    else if String.eqb selector "#a" then Ok [0]
    else Ok [];
  open_read path :=
    if String.eqb path "app.js" then Ok "var b = nav;"
    else if String.eqb path "index.html" then Ok "<p id='a'>text</p>"
    else Raise (IOError path);
  parseFile path :=
    if String.eqb path "site.css"
    then Ok [CSSStyleRule ["#a"; ".b"]; CSSOtherRule;
             CSSStyleRule ["div"; "#nav .item"; ":has(>x)"]]
    else Raise (IOError path);
  isfile path := bool_decide (path ∈ known_files);
  isdir path := false;
  walk path := [];
  path_join dirpath filename := dirpath +:+ "/" +:+ filename;
  splitext_lower path := default "" (last_dot_suffix path)
|}.

Definition site_selectors : gset string :=
  {["#a"; ".b"; "div"; "#nav .item"; ":has(>x)"]}.

End Demo.

(** * Vocabulary of the statements *)

(** Every character of [x] is in [[a-zA-Z0-9]]. *)
Fixpoint all_alnum (x : string) : bool :=
  match x with
  | String c x' => (is_alnum c && all_alnum x')%bool
  | "" => true
  end.

(** [x] is a token written after the character [p] in [s]: [s] contains [p]
    followed by [x], where [x] is a non-empty run of [[a-zA-Z0-9]] that
    cannot be extended to the right. *)
Definition token_after (p : ascii) (x s : string) : Prop :=
  ∃ pre post, s = pre +:+ String p (x +:+ post)
    ∧ x ≠ "" ∧ all_alnum x = true
    ∧ from_option is_alnum false (head_char post) = false.

(** The last character of [s], or [before] when [s] is empty. *)
Fixpoint last_from (before : option ascii) (s : string) : option ascii :=
  match s with
  | String a s' => last_from (Some a) s'
  | "" => before
  end.

Definition last_char (s : string) : option ascii := last_from None s.

(** [w] occurs in [content] as a whole word: no word character stands
    directly before or directly after the occurrence. *)
Definition whole_word_in (w content : string) : Prop :=
  ∃ pre post, content = pre +:+ w +:+ post
    ∧ is_word_opt (last_char pre) = false ∧ is_word_opt (head_char post) = false.

(** The identifiers of a selector: the ids and classes [findall] extracts. *)
Definition identifiers (selector : string) : list string :=
  REGEX_ID_findall selector ++ REGEX_CLASS_findall selector.

(** [k] is the key of an identifier of [s]: ['#' + id] or ['.' + class]. *)
Definition key_of (s k : string) : Prop :=
  (∃ x, x ∈ REGEX_ID_findall s ∧ k = String "#" x)
  ∨ (∃ x, x ∈ REGEX_CLASS_findall s ∧ k = String "." x).

(** Some text of the list contains the word. *)
Definition occurs_in (contents : list string) (word : string) : bool :=
  existsb (re_search_word word) contents.

(** What the grep stage decides for one selector, given the texts read. *)
Definition grep_kept (contents : list string) (selector : string) : bool :=
  negb (existsb (occurs_in contents) (identifiers selector)).

(** The objects of the grep stage, in the order they are made, behind the
    caller's objects [σ0]; [g] are the sets of found words made on the way. *)
Definition grep_store (σ0 : list (gset string)) (ids classes : gset string)
    (st : grep_state) (g : list (gset string)) : list (gset string) :=
  σ0 ++ ids :: classes :: findable_ids st :: findable_classes st
     :: unfindable_ids st :: unfindable_classes st :: g.

Section Vocabulary.
Context `{ext : Externals}.

(** What the DOM stage decides for one selector, given the documents parsed:
    the selector is kept when no document has a node for it. *)
Definition dom_kept (soups : list Soup) (selector : string) : bool :=
  forallb (λ soup, negb (selector_matches soup selector)) soups.

(** The two stages one after the other, as [main] chains them, and in the
    opposite order. *)
Definition dom_then_grep (selectors : gset string) (html_files src_files : list string)
    : result (gset string) :=
  '(unused_selectors, _) ← _eliminate_selectors_from_dom_matching selectors html_files;
  '(unused_selectors, _) ← _eliminate_selectors_from_idclass_grepping unused_selectors src_files;
  mret unused_selectors.

Definition grep_then_dom (selectors : gset string) (html_files src_files : list string)
    : result (gset string) :=
  '(unused_selectors, _) ← _eliminate_selectors_from_idclass_grepping selectors src_files;
  '(unused_selectors, _) ← _eliminate_selectors_from_dom_matching unused_selectors html_files;
  mret unused_selectors.

End Vocabulary.

(** * Properties *)

(** ** Loops that collect the members passing a test *)

Lemma elem_of_foldl_add_if (test : string → bool) (l : list string) (acc : gset string) x :
  x ∈ foldl (add_if test) acc l ↔ x ∈ acc ∨ (x ∈ l ∧ test x = true).
Proof.
  revert acc; induction l as [|y l IH]; intros acc; simpl.
  - rewrite elem_of_nil. tauto.
  - rewrite IH. clear IH. unfold add_if. rewrite elem_of_cons.
    destruct (test y) eqn:Hy.
    + rewrite elem_of_union, elem_of_singleton. intuition congruence.
    + intuition congruence.
Qed.

Lemma foldl_add_if_filter (test : string → bool) (X : gset string) :
  foldl (add_if test) ∅ (elements X) = filter (λ x, test x = true) X.
Proof.
  apply set_eq; intros x.
  rewrite elem_of_foldl_add_if, elem_of_filter, elem_of_elements.
  rewrite elem_of_empty. tauto.
Qed.

Lemma get_occuring_words_filter (words : gset string) (content : string) :
  get_occuring_words words content
  = filter (λ word, re_search_word word content = true) words.
Proof. apply foldl_add_if_filter. Qed.

(** ** The DOM stage *)

Section DomStage.
Context `{ext : Externals}.

Lemma selector_matches_true soup selector :
  selector_matches soup selector = true
  ↔ ∃ nodes, soup_select soup selector = Ok nodes ∧ nodes ≠ [].
Proof.
  unfold selector_matches. destruct (soup_select soup selector) as [nodes|e].
  - rewrite bool_decide_eq_true. split.
    + intros Hn. exists nodes. split; [done|]. intros ->. simpl in Hn. lia.
    + intros (nodes' & Heq & Hne). destruct nodes; [congruence|simpl; lia].
  - split; [done|]. by intros (? & ? & _).
Qed.

Lemma get_matching_selectors_in_dom_eq selectors html_file :
  get_matching_selectors_in_dom selectors html_file
  = soup ← open_BeautifulSoup html_file;
    mret (filter (λ x, selector_matches soup x = true) selectors).
Proof.
  unfold get_matching_selectors_in_dom.
  destruct (open_BeautifulSoup html_file) as [soup|e]; simpl; [|done].
  by rewrite foldl_add_if_filter.
Qed.

Lemma dom_matching_loop_eq html_files : ∀ unused_selectors,
  dom_matching_loop unused_selectors html_files
  = soups ← mapM open_BeautifulSoup html_files;
    mret (filter (λ x, dom_kept soups x = true) unused_selectors).
Proof.
  induction html_files as [|f files IH]; intros U; simpl.
  - f_equal. apply set_eq; intros x. rewrite elem_of_filter. naive_solver.
  - rewrite get_matching_selectors_in_dom_eq.
    destruct (open_BeautifulSoup f) as [soup|e]; simpl; [|done].
    rewrite IH. destruct (mapM open_BeautifulSoup files) as [soups|e]; simpl; [|done].
    f_equal. apply set_eq; intros x.
    rewrite !elem_of_filter, elem_of_difference, elem_of_filter. simpl.
    rewrite andb_true_iff, negb_true_iff.
    destruct (selector_matches soup x); naive_solver.
Qed.

Lemma dom_stage_eq selectors html_files :
  _eliminate_selectors_from_dom_matching selectors html_files
  = soups ← mapM open_BeautifulSoup html_files;
    let unused := filter (λ x, dom_kept soups x = true) selectors in
    mret (unused, {| dm_unused_selectors := sorted unused |}).
Proof.
  unfold _eliminate_selectors_from_dom_matching. rewrite dom_matching_loop_eq.
  by destruct (mapM open_BeautifulSoup html_files).
Qed.

End DomStage.

(** ** The identifier extraction *)

Lemma origins_get_append key selector origins k :
  origins_get (origins_append key selector origins) k
  = if decide (key = k) then origins_get origins k ++ [selector]
    else origins_get origins k.
Proof.
  unfold origins_get, origins_append. destruct (decide (key = k)) as [-> |Hne].
  - by rewrite lookup_insert_eq.
  - by rewrite lookup_insert_ne.
Qed.

Lemma extract_tokens_names p selector tokens : ∀ names origins,
  (extract_tokens p selector (names, origins) tokens).1 = names ∪ list_to_set tokens.
Proof.
  unfold extract_tokens.
  induction tokens as [|t tokens IH]; intros names origins; simpl.
  - set_solver.
  - rewrite IH. set_solver.
Qed.

Lemma extract_tokens_origins p selector tokens : ∀ names origins k s,
  s ∈ origins_get (extract_tokens p selector (names, origins) tokens).2 k
  ↔ s ∈ origins_get origins k ∨ (s = selector ∧ ∃ x, x ∈ tokens ∧ k = String p x).
Proof.
  unfold extract_tokens.
  induction tokens as [|t tokens IH]; intros names origins k s; simpl.
  - split; [auto|]. intros [?|(_ & x & Hx & _)]; [done|]. by apply elem_of_nil in Hx.
  - rewrite IH, origins_get_append. clear IH.
    destruct (decide (String p t = k)) as [<- |Hne].
    + rewrite elem_of_app, list_elem_of_singleton. split.
      * intros [[?| ->]|(-> & x & Hx & Hk)]; eauto 8 using list_elem_of_here, list_elem_of_further.
      * intros [?|(-> & x & Hx & Hk)]; eauto.
    + split.
      * intros [?|(-> & x & Hx & Hk)]; eauto 8 using list_elem_of_further.
      * intros [?|(-> & x & Hx & Hk)]; [auto|].
        apply elem_of_cons in Hx as [-> |Hx]; [congruence|eauto 8].
Qed.

Lemma extract_tokens_dom p selector tokens : ∀ names origins k,
  k ∈ dom (extract_tokens p selector (names, origins) tokens).2
  ↔ k ∈ dom origins ∨ ∃ x, x ∈ tokens ∧ k = String p x.
Proof.
  unfold extract_tokens.
  induction tokens as [|t tokens IH]; intros names origins k; simpl.
  - split; [auto|]. intros [?|(x & Hx & _)]; [done|]. by apply elem_of_nil in Hx.
  - rewrite IH. clear IH. unfold origins_append. rewrite dom_insert, elem_of_union, elem_of_singleton.
    split.
    + intros [[-> |?]|(x & Hx & ->)]; eauto using list_elem_of_here, list_elem_of_further.
    + intros [?|(x & Hx & ->)]; [auto|].
      apply elem_of_cons in Hx as [-> |Hx]; eauto.
Qed.

(** The state of the extraction after the selectors of [l], from [acc]. *)
Lemma extract_step_unfold ids classes origins selector :
  extract_step (ids, classes, origins) selector
  = let r1 := extract_tokens "#" selector (ids, origins) (REGEX_ID_findall selector) in
    let r2 := extract_tokens "." selector (classes, r1.2) (REGEX_CLASS_findall selector) in
    (r1.1, r2.1, r2.2).
Proof.
  unfold extract_step.
  destruct (extract_tokens "#" selector (ids, origins) (REGEX_ID_findall selector)) as [i o].
  simpl. by destruct (extract_tokens "." selector (classes, o) (REGEX_CLASS_findall selector)).
Qed.

Lemma extract_fold_ids l : ∀ acc x,
  x ∈ (foldl extract_step acc l).1.1
  ↔ x ∈ acc.1.1 ∨ ∃ s, s ∈ l ∧ x ∈ REGEX_ID_findall s.
Proof.
  induction l as [|sel l IH]; intros [[ids classes] origins] x; cbn [foldl].
  - split; [auto|]. intros [?|(s & Hs & _)]; [done|]. by apply elem_of_nil in Hs.
  - rewrite IH, extract_step_unfold. clear IH. simpl.
    rewrite extract_tokens_names, elem_of_union, elem_of_list_to_set. split.
    + intros [[?|?]|(s & Hs & ?)]; eauto using list_elem_of_here, list_elem_of_further.
    + intros [?|(s & Hs & ?)]; [auto|].
      apply elem_of_cons in Hs as [-> |Hs]; eauto.
Qed.

Lemma extract_fold_classes l : ∀ acc x,
  x ∈ (foldl extract_step acc l).1.2
  ↔ x ∈ acc.1.2 ∨ ∃ s, s ∈ l ∧ x ∈ REGEX_CLASS_findall s.
Proof.
  induction l as [|sel l IH]; intros [[ids classes] origins] x; cbn [foldl].
  - split; [auto|]. intros [?|(s & Hs & _)]; [done|]. by apply elem_of_nil in Hs.
  - rewrite IH, extract_step_unfold. clear IH. simpl.
    rewrite extract_tokens_names, elem_of_union, elem_of_list_to_set. split.
    + intros [[?|?]|(s & Hs & ?)]; eauto using list_elem_of_here, list_elem_of_further.
    + intros [?|(s & Hs & ?)]; [auto|].
      apply elem_of_cons in Hs as [-> |Hs]; eauto.
Qed.

Lemma extract_fold_origins l : ∀ acc k s,
  s ∈ origins_get (foldl extract_step acc l).2 k
  ↔ s ∈ origins_get acc.2 k ∨ (s ∈ l ∧ key_of s k).
Proof.
  induction l as [|sel l IH]; intros [[ids classes] origins] k s; cbn [foldl].
  - split; [auto|]. intros [?|(Hs & _)]; [done|]. by apply elem_of_nil in Hs.
  - rewrite IH, extract_step_unfold. clear IH. simpl.
    rewrite !extract_tokens_origins. unfold key_of. rewrite elem_of_cons. split.
    + intros [[[?|(-> & ?)]|(-> & ?)]|(? & ?)]; eauto 8.
    + intros [?|([-> |?] & [?|?])]; eauto 8.
Qed.

Lemma extract_fold_dom l : ∀ acc k,
  k ∈ dom (foldl extract_step acc l).2
  ↔ k ∈ dom acc.2 ∨ ∃ s, s ∈ l ∧ key_of s k.
Proof.
  induction l as [|sel l IH]; intros [[ids classes] origins] k; cbn [foldl].
  - split; [auto|]. intros [?|(s & Hs & _)]; [done|]. by apply elem_of_nil in Hs.
  - rewrite IH, extract_step_unfold. clear IH. simpl.
    rewrite !extract_tokens_dom. unfold key_of. split.
    + intros [[[?|?]|?]|(s & Hs & ?)]; eauto 8 using list_elem_of_here, list_elem_of_further.
    + intros [?|(s & Hs & Hk)]; [auto|].
      apply elem_of_cons in Hs as [-> |Hs]; [|eauto 8]. destruct Hk; eauto 8.
Qed.

Lemma extract_ids (selectors : gset string) x :
  x ∈ (extract_ids_and_classes_from_selectors selectors).1.1
  ↔ ∃ s, s ∈ selectors ∧ x ∈ REGEX_ID_findall s.
Proof.
  unfold extract_ids_and_classes_from_selectors. rewrite extract_fold_ids. simpl.
  rewrite elem_of_empty. setoid_rewrite elem_of_elements. tauto.
Qed.

Lemma extract_classes (selectors : gset string) x :
  x ∈ (extract_ids_and_classes_from_selectors selectors).1.2
  ↔ ∃ s, s ∈ selectors ∧ x ∈ REGEX_CLASS_findall s.
Proof.
  unfold extract_ids_and_classes_from_selectors. rewrite extract_fold_classes. simpl.
  rewrite elem_of_empty. setoid_rewrite elem_of_elements. tauto.
Qed.

Lemma extract_origins (selectors : gset string) k s :
  s ∈ origins_get (extract_ids_and_classes_from_selectors selectors).2 k
  ↔ s ∈ selectors ∧ key_of s k.
Proof.
  unfold extract_ids_and_classes_from_selectors. rewrite extract_fold_origins. simpl.
  unfold origins_get at 1. rewrite lookup_empty. simpl.
  rewrite elem_of_nil, elem_of_elements. tauto.
Qed.

Lemma extract_dom (selectors : gset string) k :
  k ∈ dom (extract_ids_and_classes_from_selectors selectors).2
  ↔ ∃ s, s ∈ selectors ∧ key_of s k.
Proof.
  unfold extract_ids_and_classes_from_selectors. rewrite extract_fold_dom. simpl.
  rewrite dom_empty, elem_of_empty. setoid_rewrite elem_of_elements. tauto.
Qed.

Lemma key_of_id s x : key_of s (String "#" x) ↔ x ∈ REGEX_ID_findall s.
Proof.
  unfold key_of. split.
  - intros [(y & Hy & [= ->])|(y & _ & [=])]. done.
  - eauto.
Qed.

Lemma key_of_class s x : key_of s (String "." x) ↔ x ∈ REGEX_CLASS_findall s.
Proof.
  unfold key_of. split.
  - intros [(y & _ & [=])|(y & Hy & [= ->])]. done.
  - eauto.
Qed.

(** ** The grep stage *)

Lemma foldl_update_origins p (origins : gmap string (list string)) l : ∀ (used : gset string) s,
  s ∈ foldl (λ used name, used ∪ list_to_set (origins_get origins (String p name))) used l
  ↔ s ∈ used ∨ ∃ x, x ∈ l ∧ s ∈ origins_get origins (String p x).
Proof.
  induction l as [|n l IH]; intros used s; simpl.
  - split; [auto|]. intros [?|(x & Hx & _)]; [done|]. by apply elem_of_nil in Hx.
  - rewrite IH. clear IH. rewrite elem_of_union, elem_of_list_to_set. split.
    + intros [[?|?]|(x & Hx & ?)]; eauto using list_elem_of_here, list_elem_of_further.
    + intros [?|(x & Hx & ?)]; [auto|].
      apply elem_of_cons in Hx as [-> | Hx]; eauto.
Qed.

Lemma update_from_origins_spec p origins names used s :
  s ∈ update_from_origins p origins used names
  ↔ s ∈ used ∨ ∃ x, x ∈ names ∧ s ∈ origins_get origins (String p x).
Proof.
  unfold update_from_origins. rewrite foldl_update_origins.
  by setoid_rewrite elem_of_elements.
Qed.

Lemma occurs_in_cons content contents word :
  occurs_in (content :: contents) word
  = (re_search_word word content || occurs_in contents word)%bool.
Proof. reflexivity. Qed.

Section GrepStage.
Context `{ext : Externals}.

Lemma grep_loop_eq src_files : ∀ st,
  findable_ids st ## unfindable_ids st →
  findable_classes st ## unfindable_classes st →
  grep_loop st src_files
  = contents ← mapM file_get_contents src_files;
    mret {| findable_ids :=
              findable_ids st ∪ filter (λ x, occurs_in contents x = true) (unfindable_ids st);
            findable_classes :=
              findable_classes st
              ∪ filter (λ x, occurs_in contents x = true) (unfindable_classes st);
            unfindable_ids :=
              filter (λ x, occurs_in contents x = false) (unfindable_ids st);
            unfindable_classes :=
              filter (λ x, occurs_in contents x = false) (unfindable_classes st) |}.
Proof.
  induction src_files as [|f files IH]; intros [fi fc ui uc] Hi Hc; simpl in *.
  - f_equal. f_equal; apply set_eq; intros x;
      rewrite ?elem_of_union, !elem_of_filter; simpl; intuition congruence.
  - destruct (file_get_contents f) as [content|e]; simpl; [|done].
    rewrite IH; simpl; [|set_solver..].
    destruct (mapM file_get_contents files) as [contents|e]; simpl; [|done].
    f_equal. f_equal; apply set_eq; intros x;
      rewrite ?get_occuring_words_filter;
      repeat (rewrite ?elem_of_union, ?elem_of_filter, ?elem_of_difference);
      unfold occurs_in; simpl;
      destruct (re_search_word x content) eqn:Hx; simpl;
      first [ specialize (Hi x) | idtac ]; first [ specialize (Hc x) | idtac ];
      intuition congruence.
Qed.

Lemma grep_kept_true contents s :
  grep_kept contents s = true
  ↔ ∀ x, x ∈ identifiers s → occurs_in contents x = false.
Proof.
  unfold grep_kept. rewrite negb_true_iff, <- not_true_iff_false, existsb_exists.
  split.
  - intros Hn x Hx. apply not_true_iff_false. intros Ho. apply Hn.
    exists x. by rewrite <- list_elem_of_In.
  - intros Hall (x & Hx & Ho). apply list_elem_of_In in Hx.
    specialize (Hall x Hx). congruence.
Qed.

Lemma grep_used_eq (selectors : gset string) contents :
  let ex := extract_ids_and_classes_from_selectors selectors in
  selectors ∖ update_from_origins "." ex.2
      (update_from_origins "#" ex.2 ∅
         (∅ ∪ filter (λ x, occurs_in contents x = true) ex.1.1))
      (∅ ∪ filter (λ x, occurs_in contents x = true) ex.1.2)
  = filter (λ s, grep_kept contents s = true) selectors.
Proof.
  intros ex. apply set_eq; intros s.
  rewrite elem_of_difference, !update_from_origins_spec, elem_of_filter, grep_kept_true.
  rewrite elem_of_empty. unfold identifiers.
  setoid_rewrite elem_of_union. setoid_rewrite elem_of_filter.
  setoid_rewrite elem_of_empty. subst ex.
  setoid_rewrite extract_origins.
  setoid_rewrite key_of_id. setoid_rewrite key_of_class.
  setoid_rewrite elem_of_app.
  split.
  - intros [Hs Hn]. split; [|done]. intros x Hx.
    apply not_true_iff_false. intros Ho. apply Hn.
    destruct Hx as [Hx|Hx].
    + left. right. exists x. split; [|done]. right. split; [done|].
      apply extract_ids; eauto.
    + right. exists x. split; [|done]. right. split; [done|].
      apply extract_classes; eauto.
  - intros [Hall Hs]. split; [done|].
    intros [[[]|(x & [[]|[Ho _]] & _ & Hx)]|(x & [[]|[Ho _]] & _ & Hx)].
    + rewrite Hall in Ho; [done|auto].
    + rewrite Hall in Ho; [done|auto].
Qed.

Lemma grep_stage_eq selectors src_files :
  _eliminate_selectors_from_idclass_grepping selectors src_files
  = contents ← mapM file_get_contents src_files;
    let ex := extract_ids_and_classes_from_selectors selectors in
    let unused := filter (λ s, grep_kept contents s = true) selectors in
    mret (unused,
          {| ic_ids := ex.1.1; ic_classes := ex.1.2;
             ic_unfindable_ids := filter (λ x, occurs_in contents x = false) ex.1.1;
             ic_unfindable_classes := filter (λ x, occurs_in contents x = false) ex.1.2;
             ic_unused_selectors := sorted unused |}).
Proof.
  unfold _eliminate_selectors_from_idclass_grepping.
  pose proof (grep_used_eq selectors) as Hused.
  destruct (extract_ids_and_classes_from_selectors selectors) as [[ids classes] origins].
  rewrite grep_loop_eq by (simpl; set_solver).
  destruct (mapM file_get_contents src_files) as [contents|e]; simpl; [|done].
  simpl in Hused. by rewrite Hused.
Qed.

End GrepStage.

(** ** The regular expressions *)

#[local] Arguments String.append : simpl nomatch.

Lemma string_app_assoc (s1 s2 s3 : string) : (s1 +:+ s2) +:+ s3 = s1 +:+ (s2 +:+ s3).
Proof. induction s1 as [|a s1 IH]; simpl; [done|]. by f_equal. Qed.

Lemma alnum_prefix_drop s : s = alnum_prefix s +:+ alnum_drop s.
Proof.
  induction s as [|a s IH]; simpl; [done|].
  destruct (is_alnum a); simpl; [|done]. by rewrite <- IH.
Qed.

Lemma alnum_prefix_all s : all_alnum (alnum_prefix s) = true.
Proof.
  induction s as [|a s IH]; simpl; [done|].
  destruct (is_alnum a) eqn:Ha; simpl; [|done]. by rewrite Ha, IH.
Qed.

Lemma alnum_drop_head s : from_option is_alnum false (head_char (alnum_drop s)) = false.
Proof.
  induction s as [|a s IH]; simpl; [done|].
  destruct (is_alnum a) eqn:Ha; simpl; done.
Qed.

Lemma alnum_prefix_app x post :
  all_alnum x = true → from_option is_alnum false (head_char post) = false →
  alnum_prefix (x +:+ post) = x ∧ alnum_drop (x +:+ post) = post.
Proof.
  intros Hx Hpost. induction x as [|c x IH]; simpl in *.
  - destruct post as [|a post]; simpl in *; [done|]. by rewrite Hpost.
  - apply andb_true_iff in Hx as [Hc Hx]. rewrite Hc.
    destruct (IH Hx) as [-> ->]. done.
Qed.

Lemma alnum_drop_app pre p t :
  is_alnum p = false →
  alnum_drop (pre +:+ String p t) = alnum_drop pre +:+ String p t.
Proof.
  intros Hp. induction pre as [|a pre IH]; simpl.
  - by rewrite Hp.
  - destruct (is_alnum a); [done|]. done.
Qed.

Lemma findall_sound p s x : x ∈ findall p s → token_after p x s.
Proof.
  revert x. apply (findall_elim (λ p s r, ∀ x, x ∈ r → token_after p x s)).
  - intros ? x Hx. by apply elem_of_nil in Hx.
  - clear p s. intros p a s' IHdrop IHnext x.
    destruct (Ascii.eqb a p && negb (String.eqb (alnum_prefix s') ""))%bool eqn:Hc.
    + apply andb_true_iff in Hc as [Ha Hne].
      apply Ascii.eqb_eq in Ha as ->.
      apply negb_true_iff, String.eqb_neq in Hne.
      intros [-> | Hx]%elem_of_cons.
      * exists "", (alnum_drop s'). simpl. rewrite <- alnum_prefix_drop.
        eauto using alnum_prefix_all, alnum_drop_head.
      * destruct (IHdrop x Hx) as (pre & post & Heq & ? & ? & ?).
        exists (String p (alnum_prefix s' +:+ pre)), post. simpl.
        rewrite string_app_assoc, <- Heq, <- alnum_prefix_drop. done.
    + intros Hx. destruct (IHnext x Hx) as (pre & post & -> & ? & ? & ?).
      by exists (String a pre), post.
Qed.

Lemma findall_complete p s x :
  is_alnum p = false → token_after p x s → x ∈ findall p s.
Proof.
  intros Hp (pre & post & Hs & Hne & Hx & Hpost). revert pre Hs.
  apply (findall_elim (λ p' s r, p' = p → ∀ pre, s = pre +:+ String p (x +:+ post) → x ∈ r));
    [| |done].
  - intros ? _ [|??] [=].
  - clear s. intros p' a s' IHdrop IHnext -> pre Hs.
    destruct pre as [|b pre]; simpl in Hs; injection Hs as -> ->.
    + rewrite Ascii.eqb_refl. destruct (alnum_prefix_app x post Hx Hpost) as [-> _].
      apply String.eqb_neq in Hne as ->. simpl. apply list_elem_of_here.
    + destruct (Ascii.eqb b p && negb _)%bool.
      * apply list_elem_of_further. apply (IHdrop eq_refl (alnum_drop pre)).
        by apply alnum_drop_app.
      * by apply (IHnext eq_refl pre).
Qed.

Lemma findall_spec p s x :
  is_alnum p = false → x ∈ findall p s ↔ token_after p x s.
Proof. intros Hp. split; [apply findall_sound|by apply findall_complete]. Qed.

Lemma is_alnum_word c : is_alnum c = true → is_word c = true.
Proof. unfold is_word. by intros ->. Qed.

Lemma last_from_word w : ∀ before,
  w ≠ "" → all_alnum w = true → is_word_opt (last_from before w) = true.
Proof.
  induction w as [|c w IH]; intros before Hne Hw; [done|]. simpl in *.
  apply andb_true_iff in Hw as [Hc Hw].
  destruct w as [|c' w]; [by apply is_alnum_word|]. by apply IH.
Qed.

Lemma head_char_word w post :
  w ≠ "" → all_alnum w = true → is_word_opt (head_char (w +:+ post)) = true.
Proof.
  destruct w as [|c w]; intros Hne Hw; [done|]. simpl in *.
  apply andb_true_iff in Hw as [Hc _]. by apply is_alnum_word.
Qed.

Lemma at_boundary_before before t :
  is_word_opt (head_char t) = true → at_boundary before t = negb (is_word_opt before).
Proof. unfold at_boundary. intros ->. by destruct (is_word_opt before). Qed.

Lemma at_boundary_after before post :
  is_word_opt before = true → at_boundary before post = negb (is_word_opt (head_char post)).
Proof. unfold at_boundary. by intros ->. Qed.

Lemma match_word_b_spec w : ∀ before s,
  match_word_b w before s = true
  ↔ ∃ post, s = w +:+ post ∧ at_boundary (last_from before w) post = true.
Proof.
  induction w as [|c w IH]; intros before s; simpl.
  - split; [by exists s|]. by intros (post & -> & ?).
  - destruct s as [|b s].
    + split; [done|]. by intros (post & [=] & _).
    + rewrite andb_true_iff, Ascii.eqb_eq, IH. split.
      * intros [-> (post & -> & Hb)]. by exists post.
      * intros (post & [= -> ->] & Hb). split; [done|]. by exists post.
Qed.

Lemma re_search_from_spec w :
  w ≠ "" → all_alnum w = true → ∀ s before,
  re_search_from w before s = true
  ↔ ∃ pre post, s = pre +:+ w +:+ post
      ∧ is_word_opt (last_from before pre) = false
      ∧ is_word_opt (head_char post) = false.
Proof.
  intros Hne Hw.
  assert (Hhere : ∀ s before,
    (at_boundary before s && match_word_b w before s)%bool = true
    ↔ ∃ post, s = w +:+ post ∧ is_word_opt before = false
        ∧ is_word_opt (head_char post) = false).
  { intros s before. rewrite andb_true_iff, match_word_b_spec. split.
    - intros [Hb (post & -> & Ha)]. exists post.
      rewrite at_boundary_before in Hb by by apply head_char_word.
      rewrite at_boundary_after in Ha by by apply last_from_word.
      apply negb_true_iff in Hb, Ha. done.
    - intros (post & -> & Hb & Ha).
      rewrite at_boundary_before by by apply head_char_word. rewrite Hb.
      split; [done|]. exists post. split; [done|].
      rewrite at_boundary_after by by apply last_from_word. by rewrite Ha. }
  induction s as [|a s IH]; intros before.
  - unfold re_search_from. rewrite orb_false_r, Hhere. split.
    + intros (post & Hs & ? & ?). by exists "", post.
    + intros (pre & post & Hs & ? & ?). destruct pre; [|done]. by exists post.
  - cbn [re_search_from]. rewrite orb_true_iff, Hhere, IH. clear IH. split.
    + intros [(post & Hs & ? & ?)|(pre & post & -> & ? & ?)].
      * by exists "", post.
      * by exists (String a pre), post.
    + intros (pre & post & Hs & Hb & Ha). destruct pre as [|b pre]; simpl in *.
      * left. by exists post.
      * right. injection Hs as -> ->. by exists pre, post.
Qed.

Lemma re_search_word_spec w content :
  w ≠ "" → all_alnum w = true →
  re_search_word w content = true ↔ whole_word_in w content.
Proof. intros Hne Hw. by apply re_search_from_spec. Qed.

(** The tokens [findall] reports are words the search model applies to. *)
Lemma findall_token p s x : x ∈ findall p s → x ≠ "" ∧ all_alnum x = true.
Proof. intros (pre & post & _ & ? & ? & _)%findall_sound. done. Qed.

(** ** [sorted] *)

Lemma sorted_Sorted (s : gset string) : Sorted String.le (sorted s).
Proof. apply (Sorted_merge_sort String.le). Qed.

Lemma sorted_Permutation (s : gset string) : sorted s ≡ₚ elements s.
Proof. apply merge_sort_Permutation. Qed.

Lemma elem_of_sorted (s : gset string) x : x ∈ sorted s ↔ x ∈ s.
Proof. by rewrite sorted_Permutation, elem_of_elements. Qed.

Lemma sorted_NoDup (s : gset string) : NoDup (sorted s).
Proof. rewrite sorted_Permutation. apply NoDup_elements. Qed.

Lemma list_to_set_sorted (s : gset string) : list_to_set (sorted s) = s.
Proof.
  apply set_eq; intros x. by rewrite elem_of_list_to_set, elem_of_sorted.
Qed.

(** Whatever order the members of the set are listed in, sorting gives the
    same list. *)
Lemma sorted_order_independent (s : gset string) (l : list string) :
  l ≡ₚ elements s → merge_sort String.le l = sorted s.
Proof.
  intros Hl. apply (Sorted_unique String.le).
  - apply (Sorted_merge_sort String.le).
  - apply sorted_Sorted.
  - by rewrite merge_sort_Permutation, sorted_Permutation.
Qed.

(** ** [main] *)

Section Main.
Context `{ext : Externals}.

Lemma main_loop_lookup css_files html_files src_files : ∀ acc results css_file,
  main_loop css_files html_files src_files acc = Ok results →
  results !! css_file
  = if decide (css_file ∈ css_files)
    then value (analyse_css_file css_file html_files src_files)
    else acc !! css_file.
Proof.
  induction css_files as [|f files IH]; intros acc results css Hloop; simpl in Hloop.
  - injection Hloop as <-. by rewrite decide_False by apply not_elem_of_nil.
  - destruct (analyse_css_file f html_files src_files) as [data|e] eqn:Hf;
      simpl in Hloop; [|done].
    rewrite (IH _ _ css Hloop).
    destruct (decide (css ∈ files)) as [Hin|Hnin].
    + rewrite decide_True by by apply list_elem_of_further. done.
    + destruct (decide (css = f)) as [-> | Hne].
      * rewrite decide_True by apply list_elem_of_here.
        by rewrite lookup_insert_eq, Hf.
      * rewrite decide_False by (rewrite elem_of_cons; tauto).
        by rewrite lookup_insert_ne.
Qed.

Lemma main_loop_raises css_files html_files src_files : ∀ acc css_file,
  css_file ∈ css_files →
  value (analyse_css_file css_file html_files src_files) = None →
  value (main_loop css_files html_files src_files acc) = None.
Proof.
  induction css_files as [|f files IH]; intros acc css Hin Hcss; simpl.
  - by apply elem_of_nil in Hin.
  - destruct (analyse_css_file f html_files src_files) as [data|e] eqn:Hf; simpl; [|done].
    apply elem_of_cons in Hin as [-> | Hin]; [by rewrite Hf in Hcss|].
    by apply (IH _ css).
Qed.

Lemma main_loop_returns css_files html_files src_files : ∀ acc,
  (∀ css_file, css_file ∈ css_files →
     is_Some (value (analyse_css_file css_file html_files src_files))) →
  is_Some (value (main_loop css_files html_files src_files acc)).
Proof.
  induction css_files as [|f files IH]; intros acc Hall; simpl; [done|].
  destruct (Hall f) as [data Hf]; [apply list_elem_of_here|].
  destruct (analyse_css_file f html_files src_files) as [data'|e]; simpl; [|done].
  apply IH. intros css Hcss. by apply Hall, list_elem_of_further.
Qed.

Lemma collect_files_nil extensions : collect_files [] extensions = ∅.
Proof. reflexivity. Qed.

End Main.

(** ** The stages over the store *)

Section StoreFacts.
Context `{ext : Externals}.

Lemma lookup_app_plus {A} (l1 l2 : list A) k : (l1 ++ l2) !! (length l1 + k) = l2 !! k.
Proof. rewrite lookup_app_r by lia. f_equal. lia. Qed.

Lemma alter_app_plus {A} (f : A → A) (l1 l2 : list A) k :
  alter f (length l1 + k) (l1 ++ l2) = l1 ++ alter f k l2.
Proof. apply alter_app_r. Qed.

Lemma alter_last {A} (f : A → A) (l : list A) x :
  alter f (length l) (l ++ [x]) = l ++ [f x].
Proof.
  replace (length l) with (length l + 0) by lia. by rewrite alter_app_plus.
Qed.

(** Reading through a reference is not affected by the objects made later. *)
Lemma read_default_app (σ new : Store.store) r :
  r < length σ → default ∅ ((σ ++ new) !! r) = default ∅ (σ !! r).
Proof. intros Hr. by rewrite lookup_app_l. Qed.

Lemma bind_run {A B} (m : Store.M A) (k : A → Store.M B) σ :
  (m ≫= k) σ
  = match m σ with
    | (Ok a, σ') => k a σ'
    | (Raise e, σ') => (Raise e, σ')
    end.
Proof. reflexivity. Qed.

Lemma ret_run {A} (a : A) (σ : Store.store) : (mret a : Store.M A) σ = (Ok a, σ).
Proof. reflexivity. Qed.

Lemma lift_run {A} (m : result A) (σ : Store.store) : Store.lift m σ = (m, σ).
Proof. reflexivity. Qed.

Lemma set_new_run σ : Store.set_new σ = (Ok (length σ), σ ++ [∅]).
Proof. reflexivity. Qed.

Lemma read_run r σ : Store.read r σ = (Ok (default ∅ (σ !! r)), σ).
Proof. reflexivity. Qed.

Lemma set_copy_run r σ :
  Store.set_copy r σ = (Ok (length σ), σ ++ [default ∅ (σ !! r)]).
Proof. reflexivity. Qed.

Lemma set_add_run r x σ :
  Store.set_add r x σ = (Ok tt, alter (λ s, s ∪ {[x]}) r σ).
Proof. reflexivity. Qed.

Lemma set_update_run r r' σ :
  Store.set_update r r' σ = (Ok tt, alter (λ s, s ∪ default ∅ (σ !! r')) r σ).
Proof. reflexivity. Qed.

Lemma set_update_list_run r l σ :
  Store.set_update_list r l σ = (Ok tt, alter (λ s, s ∪ list_to_set l) r σ).
Proof. reflexivity. Qed.

Lemma set_difference_update_run r r' σ :
  Store.set_difference_update r r' σ
  = (Ok tt, alter (λ s, s ∖ default ∅ (σ !! r')) r σ).
Proof. reflexivity. Qed.

Lemma set_difference_run r r' σ :
  Store.set_difference r r' σ
  = (Ok (length σ), σ ++ [default ∅ (σ !! r) ∖ default ∅ (σ !! r')]).
Proof. reflexivity. Qed.

(** The loop that fills a fresh set with the members passing a test. *)
Lemma for_each_add_if (test : string → bool) (l : list string) : ∀ σ X,
  Store.for_each
    (λ x, if test x then Store.set_add (length σ) x else mret tt) l (σ ++ [X])
  = (Ok tt, σ ++ [foldl (add_if test) X l]).
Proof.
  induction l as [|x l IH]; intros σ X; simpl; [done|].
  rewrite bind_run. unfold add_if at 2. destruct (test x).
  - rewrite set_add_run, alter_last. apply IH.
  - rewrite ret_run. apply IH.
Qed.

Lemma collect_run (test : string → bool) (r : Store.ref) σ :
  r < length σ →
  (found ← Store.set_new;
   Store.for_members r (λ x,
     if test x then Store.set_add found x else mret tt);;
   mret found) σ
  = (Ok (length σ),
     σ ++ [foldl (add_if test) ∅ (elements (default ∅ (σ !! r)))]).
Proof.
  intros Hr. rewrite bind_run, set_new_run, bind_run.
  unfold Store.for_members. rewrite bind_run, read_run.
  rewrite read_default_app by done.
  by rewrite for_each_add_if.
Qed.

Lemma get_occuring_words_run (words : Store.ref) content σ :
  words < length σ →
  Store.get_occuring_words words content σ
  = (Ok (length σ), σ ++ [get_occuring_words (default ∅ (σ !! words)) content]).
Proof. intros Hr. unfold Store.get_occuring_words. by rewrite collect_run. Qed.

Lemma get_matching_selectors_in_dom_run (selectors : Store.ref) html_file σ :
  selectors < length σ →
  Store.get_matching_selectors_in_dom selectors html_file σ
  = match get_matching_selectors_in_dom (default ∅ (σ !! selectors)) html_file with
    | Ok found => (Ok (length σ), σ ++ [found])
    | Raise e => (Raise e, σ)
    end.
Proof.
  intros Hr. unfold Store.get_matching_selectors_in_dom, get_matching_selectors_in_dom.
  rewrite bind_run, lift_run.
  destruct (open_BeautifulSoup html_file) as [soup|e]; simpl; [|done].
  by rewrite collect_run.
Qed.

Lemma lookup_middle_default (l1 l2 : list (gset string)) X :
  default ∅ ((l1 ++ X :: l2) !! length l1) = X.
Proof. by rewrite list_lookup_middle. Qed.

Lemma alter_middle (f : gset string → gset string) l1 l2 X :
  alter f (length l1) (l1 ++ X :: l2) = l1 ++ f X :: l2.
Proof.
  replace (length l1) with (length l1 + 0) by lia. by rewrite alter_app_r.
Qed.

(** The DOM stage keeps its working copy right after the caller's objects
    and only adds objects behind it. *)
Lemma dom_loop_run html_files σ0 : ∀ U g,
  ∃ U' g',
    Store.for_each
      (λ html_file,
         found_selectors ← Store.get_matching_selectors_in_dom (length σ0) html_file;
         Store.set_difference_update (length σ0) found_selectors)
      html_files (σ0 ++ U :: g)
    = (match dom_matching_loop U html_files with
       | Ok _ => Ok tt
       | Raise e => Raise e
       end, σ0 ++ U' :: g')
    ∧ ∀ V, dom_matching_loop U html_files = Ok V → U' = V.
Proof.
  induction html_files as [|f files IH]; intros U g.
  - exists U, g. split; [done|]. by intros V [= <-].
  - cbn [Store.for_each dom_matching_loop].
    rewrite bind_run, bind_run, get_matching_selectors_in_dom_run
      by (rewrite length_app; simpl; lia).
    rewrite lookup_middle_default.
    destruct (get_matching_selectors_in_dom U f) as [F|e]; cbv beta iota.
    + rewrite set_difference_update_run.
      replace (default ∅ (((σ0 ++ U :: g) ++ [F]) !! length (σ0 ++ U :: g))) with F
        by by rewrite lookup_middle_default.
      rewrite <- (assoc_L (++)). simpl. rewrite alter_middle.
      apply IH.
    + exists U, g. split; [done|]. by intros V [=].
Qed.

Lemma dom_stage_run selectors html_files σ0 S :
  σ0 !! selectors = Some S →
  ∃ new,
    Store._eliminate_selectors_from_dom_matching selectors html_files σ0
    = (match _eliminate_selectors_from_dom_matching S html_files with
       | Ok (_, data) => Ok (length σ0, data)
       | Raise e => Raise e
       end, σ0 ++ new)
    ∧ ∀ remaining data,
        _eliminate_selectors_from_dom_matching S html_files = Ok (remaining, data) →
        (σ0 ++ new) !! length σ0 = Some remaining.
Proof.
  intros HS. unfold Store._eliminate_selectors_from_dom_matching,
    _eliminate_selectors_from_dom_matching.
  rewrite bind_run, set_copy_run, HS. simpl.
  destruct (dom_loop_run html_files σ0 S []) as (U' & g' & Hrun & HU').
  rewrite bind_run, Hrun.
  destruct (dom_matching_loop S html_files) as [V|e]; simpl.
  - rewrite (HU' V eq_refl). rewrite bind_run, read_run, lookup_middle_default.
    exists (V :: g'). split; [done|].
    intros remaining data [= <- _]. by rewrite list_lookup_middle.
  - exists (U' :: g'). split; [done|]. by intros ?? [=].
Qed.

(** The extraction fills two fresh sets, [ids] and then [classes]. *)
Lemma for_fold_ids selector tokens : ∀ σ I C origins,
  Store.for_fold
    (λ origins id,
       Store.set_add (length σ) id;;
       mret (origins_append (String "#" id) selector origins))
    origins tokens (σ ++ [I; C])
  = (Ok (extract_tokens "#" selector (I, origins) tokens).2,
     σ ++ [(extract_tokens "#" selector (I, origins) tokens).1; C]).
Proof.
  unfold extract_tokens.
  induction tokens as [|t tokens IH]; intros σ I C origins; [done|].
  cbn [Store.for_fold foldl].
  rewrite bind_run, bind_run, set_add_run, alter_middle. cbv beta iota.
  rewrite ret_run. apply IH.
Qed.

Lemma for_fold_classes selector tokens : ∀ σ I C origins,
  Store.for_fold
    (λ origins classs,
       Store.set_add (length σ + 1) classs;;
       mret (origins_append (String "." classs) selector origins))
    origins tokens (σ ++ [I; C])
  = (Ok (extract_tokens "." selector (C, origins) tokens).2,
     σ ++ [I; (extract_tokens "." selector (C, origins) tokens).1]).
Proof.
  unfold extract_tokens.
  induction tokens as [|t tokens IH]; intros σ I C origins; [done|].
  cbn [Store.for_fold foldl].
  rewrite bind_run, bind_run, set_add_run, alter_app_r. cbv beta iota.
  rewrite ret_run. apply IH.
Qed.

Lemma extract_loop_run l : ∀ σ I C O,
  Store.for_fold
    (λ origins selector,
       origins ← Store.for_fold
         (λ origins id,
            Store.set_add (length σ) id;;
            mret (origins_append (String "#" id) selector origins))
         origins (REGEX_ID_findall selector);
       Store.for_fold
         (λ origins classs,
            Store.set_add (length σ + 1) classs;;
            mret (origins_append (String "." classs) selector origins))
         origins (REGEX_CLASS_findall selector))
    O l (σ ++ [I; C])
  = (Ok (foldl extract_step (I, C, O) l).2,
     σ ++ [(foldl extract_step (I, C, O) l).1.1; (foldl extract_step (I, C, O) l).1.2]).
Proof.
  induction l as [|sel l IH]; intros σ I C O; [done|].
  cbn [Store.for_fold foldl].
  rewrite bind_run, bind_run, for_fold_ids, for_fold_classes, extract_step_unfold.
  apply IH.
Qed.

Lemma extract_ids_and_classes_from_selectors_run (selectors : Store.ref) σ :
  selectors < length σ →
  Store.extract_ids_and_classes_from_selectors selectors σ
  = let ex := extract_ids_and_classes_from_selectors (default ∅ (σ !! selectors)) in
    (Ok (length σ, length σ + 1, ex.2), σ ++ [ex.1.1; ex.1.2]).
Proof.
  intros Hr. unfold Store.extract_ids_and_classes_from_selectors,
    extract_ids_and_classes_from_selectors.
  rewrite bind_run, set_new_run, bind_run, set_new_run, bind_run, read_run.
  rewrite length_app. cbn [length]. rewrite <- (assoc_L (++)). cbn [app].
  rewrite read_default_app by done.
  rewrite bind_run, extract_loop_run. done.
Qed.

Lemma grep_loop_run src_files σ0 ids classes : ∀ st g,
  ∃ st' g',
    Store.for_each
      (λ src_file,
         content ← Store.lift (file_get_contents src_file);
         found ← Store.get_occuring_words (length σ0 + 4) content;
         Store.set_update (length σ0 + 2) found;;
         Store.set_difference_update (length σ0 + 4) (length σ0 + 2);;
         found ← Store.get_occuring_words (length σ0 + 5) content;
         Store.set_update (length σ0 + 3) found;;
         Store.set_difference_update (length σ0 + 5) (length σ0 + 3))
      src_files (grep_store σ0 ids classes st g)
    = (match grep_loop st src_files with
       | Ok _ => Ok tt
       | Raise e => Raise e
       end, grep_store σ0 ids classes st' g')
    ∧ ∀ st'', grep_loop st src_files = Ok st'' → st' = st''.
Proof.
  induction src_files as [|f files IH]; intros [fi fc ui uc] g.
  - exists (Build_grep_state fi fc ui uc), g. split; [done|]. by intros ? [= <-].
  - cbn [Store.for_each grep_loop]. unfold grep_store.
    cbn [findable_ids findable_classes unfindable_ids unfindable_classes].
    rewrite bind_run, bind_run, lift_run.
    destruct (file_get_contents f) as [content|e]; cbv beta iota.
    2:{ exists (Build_grep_state fi fc ui uc), g. split; [done|]. by intros ? [=]. }
    rewrite bind_run, get_occuring_words_run by (rewrite length_app; simpl; lia).
    rewrite lookup_app_plus. cbn [lookup list_lookup default from_option]. cbv beta iota.
    rewrite bind_run, set_update_run, lookup_middle_default.
    rewrite <- (assoc_L (++)). cbn [app]. rewrite alter_app_r.
    cbn [alter list_alter]. cbv beta iota.
    rewrite bind_run, set_difference_update_run, lookup_app_plus.
    cbn [lookup list_lookup default from_option]. rewrite alter_app_r.
    cbn [alter list_alter]. cbv beta iota.
    set (σ1 := σ0 ++ _).
    rewrite bind_run, get_occuring_words_run
      by (subst σ1; rewrite length_app; simpl; lia).
    subst σ1. rewrite lookup_app_plus.
    cbn [lookup list_lookup default from_option]. cbv beta iota.
    rewrite bind_run, set_update_run, lookup_middle_default.
    rewrite <- (assoc_L (++)). cbn [app]. rewrite alter_app_r.
    cbn [alter list_alter]. cbv beta iota.
    rewrite set_difference_update_run, lookup_app_plus.
    cbn [lookup list_lookup default from_option]. rewrite alter_app_r.
    cbn [alter list_alter].
    apply (IH (Build_grep_state _ _ _ _)).
Qed.

Lemma for_each_update_list (f : string → list string) (l : list string) : ∀ σ X,
  Store.for_each (λ x, Store.set_update_list (length σ) (f x)) l (σ ++ [X])
  = (Ok tt, σ ++ [foldl (λ used x, used ∪ list_to_set (f x)) X l]).
Proof.
  induction l as [|x l IH]; intros σ X; [done|].
  cbn [Store.for_each foldl]. rewrite bind_run, set_update_list_run, alter_last.
  apply IH.
Qed.

Lemma read_behind (σ0 L new : list (gset string)) k :
  k < length L →
  default ∅ (((σ0 ++ L) ++ new) !! (length σ0 + k)) = default ∅ (L !! k).
Proof.
  intros Hk. rewrite lookup_app_l by (rewrite length_app; lia).
  by rewrite lookup_app_plus.
Qed.

Lemma read_before (σ0 L new : list (gset string)) r :
  r < length σ0 →
  default ∅ (((σ0 ++ L) ++ new) !! r) = default ∅ (σ0 !! r).
Proof.
  intros Hr. rewrite <- (assoc_L (++)). by rewrite lookup_app_l.
Qed.

Lemma grep_stage_run selectors src_files σ0 S :
  σ0 !! selectors = Some S →
  ∃ new res,
    Store._eliminate_selectors_from_idclass_grepping selectors src_files σ0
    = (res, σ0 ++ new)
    ∧ match _eliminate_selectors_from_idclass_grepping S src_files with
      | Ok (remaining, data) =>
          ∃ unused sdata, res = Ok (unused, sdata)
            ∧ length σ0 ≤ unused
            ∧ (σ0 ++ new) !! unused = Some remaining
            ∧ (σ0 ++ new) !! Store.ic_ids sdata = Some (ic_ids data)
            ∧ (σ0 ++ new) !! Store.ic_classes sdata = Some (ic_classes data)
            ∧ (σ0 ++ new) !! Store.ic_unfindable_ids sdata
              = Some (ic_unfindable_ids data)
            ∧ (σ0 ++ new) !! Store.ic_unfindable_classes sdata
              = Some (ic_unfindable_classes data)
            ∧ Store.ic_unused_selectors sdata = ic_unused_selectors data
      | Raise e => res = Raise e
      end.
Proof.
  intros HS. pose proof (lookup_lt_Some _ _ _ HS) as Hlt.
  unfold Store._eliminate_selectors_from_idclass_grepping,
    _eliminate_selectors_from_idclass_grepping.
  rewrite bind_run, extract_ids_and_classes_from_selectors_run, HS by done.
  cbn [default from_option id]. cbv zeta.
  destruct (extract_ids_and_classes_from_selectors S) as [[ids classes] origins].
  cbn [fst snd]. cbv beta iota.
  rewrite bind_run, set_new_run, length_app, <- (assoc_L (++)).
  cbn [app length]. cbv beta iota.
  rewrite bind_run, set_new_run, length_app, <- (assoc_L (++)).
  cbn [app length]. cbv beta iota.
  rewrite bind_run, set_copy_run, lookup_middle_default, length_app, <- (assoc_L (++)).
  cbn [app length]. cbv beta iota.
  rewrite bind_run, set_copy_run, lookup_app_plus, length_app, <- (assoc_L (++)).
  cbn [app length lookup list_lookup default from_option id]. cbv beta iota.
  destruct (grep_loop_run src_files σ0 ids classes
              (Build_grep_state ∅ ∅ ids classes) []) as (st' & g' & Hrun & Hst').
  unfold grep_store in Hrun.
  cbn [findable_ids findable_classes unfindable_ids unfindable_classes] in Hrun.
  rewrite bind_run, Hrun. clear Hrun.
  destruct (grep_loop _ src_files) as [st|e]; cbv beta iota.
  2:{ eexists _, _. split; [reflexivity|done]. }
  rewrite (Hst' st eq_refl). clear Hst' st'. destruct st as [fi fc ui uc].
  cbn [findable_ids findable_classes unfindable_ids unfindable_classes].
  set (L := ids :: classes :: fi :: fc :: ui :: uc :: g').
  assert (HL : 5 < length L) by (subst L; simpl; lia).
  rewrite bind_run, set_new_run. cbv beta iota.
  unfold Store.for_members.
  rewrite bind_run, bind_run, read_run, read_behind by lia. cbv beta iota.
  rewrite for_each_update_list.
  rewrite bind_run, bind_run, read_run, read_behind by lia. cbv beta iota.
  rewrite for_each_update_list.
  rewrite bind_run, set_difference_run, read_before, HS, lookup_middle_default by done.
  cbv beta iota.
  rewrite bind_run, read_run, lookup_middle_default. cbv beta iota. rewrite ret_run.
  subst L. cbn [lookup list_lookup default from_option id].
  rewrite <- !(assoc_L (++)).
  eexists _, _. split; [reflexivity|].
  cbv beta iota delta [mbind result_bind mret result_ret].
  eexists _, _. split; [reflexivity|].
  cbn [Store.ic_ids Store.ic_classes Store.ic_unfindable_ids
       Store.ic_unfindable_classes Store.ic_unused_selectors
       ic_ids ic_classes ic_unfindable_ids ic_unfindable_classes ic_unused_selectors
       findable_ids findable_classes unfindable_ids unfindable_classes].
  split_and!.
  - rewrite length_app. lia.
  - rewrite !(assoc_L (++)). by rewrite list_lookup_middle.
  - cbn [app]. by rewrite list_lookup_middle.
  - by rewrite lookup_app_plus.
  - by rewrite lookup_app_plus.
  - by rewrite lookup_app_plus.
  - done.
Qed.

End StoreFacts.

(** ** Reading a list of files *)

Lemma mapM_Ok_elem_of {A B} (f : A → result B) (l : list A) : ∀ ys x y,
  mapM f l = Ok ys → x ∈ l → f x = Ok y → y ∈ ys.
Proof.
  induction l as [|a l IH]; intros ys x y Hm Hx Hy; [by apply elem_of_nil in Hx|].
  simpl in Hm. destruct (f a) as [b|e] eqn:Ha; simpl in Hm; [|done].
  destruct (mapM f l) as [bs|e] eqn:Hl; simpl in Hm; [|done].
  injection Hm as <-. apply elem_of_cons in Hx as [-> | Hx].
  - rewrite Ha in Hy. injection Hy as ->. apply list_elem_of_here.
  - apply list_elem_of_further. by apply (IH bs x y).
Qed.

Lemma mapM_Ok_inv {A B} (f : A → result B) (l : list A) : ∀ ys y,
  mapM f l = Ok ys → y ∈ ys → ∃ x, x ∈ l ∧ f x = Ok y.
Proof.
  induction l as [|a l IH]; intros ys y Hm Hy; simpl in Hm.
  - injection Hm as <-. by apply elem_of_nil in Hy.
  - destruct (f a) as [b|e] eqn:Ha; simpl in Hm; [|done].
    destruct (mapM f l) as [bs|e] eqn:Hl; simpl in Hm; [|done].
    injection Hm as <-. apply elem_of_cons in Hy as [-> | Hy].
    + exists a. split; [apply list_elem_of_here|done].
    + destruct (IH bs y eq_refl Hy) as (x & Hx & Hfx).
      exists x. split; [by apply list_elem_of_further|done].
Qed.

Lemma mapM_Ok_total {A B} (f : A → result B) (l : list A) :
  (∀ x, x ∈ l → ∃ y, f x = Ok y) → ∃ ys, mapM f l = Ok ys.
Proof.
  induction l as [|a l IH]; intros Hall; simpl; [by exists []|].
  destruct (Hall a) as [b ->]; [apply list_elem_of_here|].
  destruct IH as [bs ->]; [intros x Hx; by apply Hall, list_elem_of_further|].
  by exists (b :: bs).
Qed.

Section Analyse.
Context `{ext : Externals}.

Lemma dom_kept_true soups selector :
  dom_kept soups selector = true
  ↔ ∀ soup, soup ∈ soups → selector_matches soup selector = false.
Proof.
  unfold dom_kept. rewrite forallb_forall. split.
  - intros Hall soup Hsoup. apply negb_true_iff, Hall. by apply list_elem_of_In.
  - intros Hall soup Hsoup. apply negb_true_iff, Hall. by apply list_elem_of_In.
Qed.

(** How [analyse_css_file] is put together from the two stages. *)
Lemma analyse_css_file_inv css_file html_files src_files data :
  analyse_css_file css_file html_files src_files = Ok data →
  ∃ unused1 unused2,
    extract_css_selectors css_file = Ok (r_selectors data)
    ∧ (if bool_decide (html_files ≠ ∅)
       then ∃ dom, _eliminate_selectors_from_dom_matching
                     (r_selectors data) (elements html_files) = Ok (unused1, dom)
                   ∧ r_dom_matching data = Some dom
       else unused1 = r_selectors data ∧ r_dom_matching data = None)
    ∧ (if bool_decide (src_files ≠ ∅)
       then ∃ idclass, _eliminate_selectors_from_idclass_grepping
                         unused1 (elements src_files) = Ok (unused2, idclass)
                       ∧ r_idclass_elimination data = Some idclass
       else unused2 = unused1 ∧ r_idclass_elimination data = None)
    ∧ r_unused_selectors data = sorted unused2.
Proof.
  unfold analyse_css_file. intros Hdata.
  destruct (extract_css_selectors css_file) as [selectors|e]; simpl in Hdata; [|done].
  destruct (bool_decide (html_files ≠ ∅)).
  - destruct (_eliminate_selectors_from_dom_matching selectors (elements html_files))
      as [[u1 dom]|e] eqn:Hd; simpl in Hdata; [|done].
    destruct (bool_decide (src_files ≠ ∅)).
    + destruct (_eliminate_selectors_from_idclass_grepping u1 (elements src_files))
        as [[u2 idc]|e] eqn:Hg; simpl in Hdata; [|done].
      injection Hdata as <-. simpl. exists u1, u2. eauto 10.
    + simpl in Hdata. injection Hdata as <-. simpl. exists u1, u1. eauto 10.
  - simpl in Hdata. destruct (bool_decide (src_files ≠ ∅)).
    + destruct (_eliminate_selectors_from_idclass_grepping selectors (elements src_files))
        as [[u2 idc]|e] eqn:Hg; simpl in Hdata; [|done].
      injection Hdata as <-. simpl. exists selectors, u2. eauto 10.
    + simpl in Hdata. injection Hdata as <-. simpl. exists selectors, selectors. eauto 10.
Qed.

Lemma analyse_css_file_raises css_file html_files src_files :
  value (extract_css_selectors css_file) = None →
  value (analyse_css_file css_file html_files src_files) = None.
Proof.
  unfold analyse_css_file. by destruct (extract_css_selectors css_file).
Qed.

End Analyse.

(** * The claims *)

(** C1. Monotonicity of elimination: whenever the DOM stage or the grep
    stage returns, the set of unused selectors it returns is a subset of the
    candidate set it was given; no stage adds a selector. *)
Theorem elimination_monotone `{ext : Externals}
    (selectors : gset string) (files : list string) :
  (∀ remaining data,
     _eliminate_selectors_from_dom_matching selectors files = Ok (remaining, data) →
     remaining ⊆ selectors)
  ∧ (∀ remaining data,
       _eliminate_selectors_from_idclass_grepping selectors files = Ok (remaining, data) →
       remaining ⊆ selectors).
Proof.
  split; intros remaining data.
  - rewrite dom_stage_eq.
    destruct (mapM open_BeautifulSoup files) as [soups|e]; simpl; [|done].
    intros [= <- _] x [_ Hx]%elem_of_filter. exact Hx.
  - rewrite grep_stage_eq.
    destruct (mapM file_get_contents files) as [contents|e]; simpl; [|done].
    intros [= <- _] x [_ Hx]%elem_of_filter. exact Hx.
Qed.

Lemma elimination_monotone_witness :
  ({["#nav .item"; ".b"; ":has(>x)"; "div"]} : gset string) ⊆ Demo.site_selectors
  ∧ ({["#a"; ":has(>x)"; "div"]} : gset string) ⊆ Demo.site_selectors.
Proof.
  split.
  - apply (proj1 (@elimination_monotone Demo.site Demo.site_selectors ["index.html"])
             _ {| dm_unused_selectors := ["#nav .item"; ".b"; ":has(>x)"; "div"] |}).
    vm_compute. reflexivity.
  - apply (proj2 (@elimination_monotone Demo.site Demo.site_selectors ["app.js"])
             _ {| ic_ids := {["a"; "nav"]}; ic_classes := {["b"; "item"]};
                  ic_unfindable_ids := {["a"]}; ic_unfindable_classes := {["item"]};
                  ic_unused_selectors := ["#a"; ":has(>x)"; "div"] |}).
    vm_compute. reflexivity.
Defined.

(** C2. Soundness of the DOM stage: a selector for which the evaluator
    returns a non-empty node list on one of the supplied documents is absent
    from the set the stage returns. *)
Theorem dom_stage_sound `{ext : Externals}
    (selectors : gset string) (html_files : list string)
    (remaining : gset string) (data : dom_matching_results)
    (html_file : string) (soup : Soup) (selector : string) (nodes : list Tag) :
  _eliminate_selectors_from_dom_matching selectors html_files = Ok (remaining, data) →
  html_file ∈ html_files →
  open_BeautifulSoup html_file = Ok soup →
  soup_select soup selector = Ok nodes →
  nodes ≠ [] →
  selector ∉ remaining.
Proof.
  rewrite dom_stage_eq. intros Hstage Hfile Hopen Hsel Hnodes.
  destruct (mapM open_BeautifulSoup html_files) as [soups|e] eqn:Hm; simpl in Hstage;
    [|done].
  injection Hstage as <- _. intros [Hkept _]%elem_of_filter.
  pose proof (mapM_Ok_elem_of _ _ _ _ _ Hm Hfile Hopen) as Hsoup.
  rewrite dom_kept_true in Hkept. specialize (Hkept soup Hsoup).
  assert (selector_matches soup selector = true) as Hmatch
    by (apply selector_matches_true; eauto).
  congruence.
Qed.

Lemma dom_stage_sound_witness :
  "#a" ∉ ({["#nav .item"; ".b"; ":has(>x)"; "div"]} : gset string).
Proof.
  apply (@dom_stage_sound Demo.site Demo.site_selectors ["index.html"]
           _ {| dm_unused_selectors := ["#nav .item"; ".b"; ":has(>x)"; "div"] |}
           "index.html" 0 "#a" [0]).
  - vm_compute. reflexivity.
  - apply list_elem_of_here.
  - reflexivity.
  - reflexivity.
  - discriminate.
Defined.

(** The DOM stage returns whenever every document can be opened. *)
Lemma dom_stage_returns `{ext : Externals} (selectors : gset string) html_files :
  (∀ html_file, html_file ∈ html_files → ∃ soup, open_BeautifulSoup html_file = Ok soup) →
  ∃ remaining data,
    _eliminate_selectors_from_dom_matching selectors html_files = Ok (remaining, data).
Proof.
  intros [soups Hm]%mapM_Ok_total. rewrite dom_stage_eq, Hm. simpl. eauto.
Qed.

(** C5. Fail-open handling of evaluator errors in the DOM stage: an
    exception of the evaluator is caught inside the loop over the selectors,
    so the found set of a document is still computed for all selectors and
    holds exactly the selectors with a non-empty result, never one whose
    evaluation raised; a candidate that no document matches, whatever
    raised on the way, is in the set the stage returns; and [main] hands
    that set to the grep stage. *)
Theorem dom_stage_fail_open `{ext : Externals} (selectors : gset string) :
  (∀ html_file soup,
     open_BeautifulSoup html_file = Ok soup →
     ∃ found,
       get_matching_selectors_in_dom selectors html_file = Ok found
       ∧ (∀ selector e, soup_select soup selector = Raise e → selector ∉ found)
       ∧ (∀ selector nodes,
            selector ∈ selectors → soup_select soup selector = Ok nodes →
            nodes ≠ [] → selector ∈ found))
  ∧ (∀ html_files remaining data selector,
       _eliminate_selectors_from_dom_matching selectors html_files = Ok (remaining, data) →
       selector ∈ selectors →
       (∀ html_file soup nodes,
          html_file ∈ html_files → open_BeautifulSoup html_file = Ok soup →
          soup_select soup selector = Ok nodes → nodes = []) →
       selector ∈ remaining)
  ∧ (∀ css_file html_files src_files data,
       analyse_css_file css_file html_files src_files = Ok data →
       html_files ≠ ∅ → src_files ≠ ∅ →
       ∃ remaining dom unused idclass,
         _eliminate_selectors_from_dom_matching (r_selectors data) (elements html_files)
         = Ok (remaining, dom)
         ∧ _eliminate_selectors_from_idclass_grepping remaining (elements src_files)
           = Ok (unused, idclass)
         ∧ r_idclass_elimination data = Some idclass).
Proof.
  split_and!.
  - intros html_file soup Hopen. rewrite get_matching_selectors_in_dom_eq, Hopen. simpl.
    eexists. split; [done|]. split.
    + intros selector e He [Hm _]%elem_of_filter.
      apply selector_matches_true in Hm as (nodes & Hn & _). congruence.
    + intros selector nodes Hin Hn Hne. apply elem_of_filter. split; [|done].
      apply selector_matches_true. eauto.
  - intros html_files remaining data selector Hstage Hin Hnone.
    rewrite dom_stage_eq in Hstage.
    destruct (mapM open_BeautifulSoup html_files) as [soups|e] eqn:Hm; simpl in Hstage;
      [|done].
    injection Hstage as <- _. apply elem_of_filter. split; [|done].
    apply dom_kept_true. intros soup Hsoup.
    destruct (mapM_Ok_inv _ _ _ _ Hm Hsoup) as (html_file & Hfile & Hopen).
    apply not_true_iff_false. intros (nodes & Hn & Hne)%selector_matches_true.
    apply Hne. by apply (Hnone html_file soup).
  - intros css_file html_files src_files data Hdata Hhtml Hsrc.
    destruct (analyse_css_file_inv _ _ _ _ Hdata) as (u1 & u2 & _ & Hd & Hg & _).
    rewrite bool_decide_eq_true_2 in Hd by done.
    rewrite bool_decide_eq_true_2 in Hg by done.
    destruct Hd as (dom & Hd & _). destruct Hg as (idc & Hg & Hidc). eauto 10.
Qed.

Lemma dom_stage_fail_open_witness :
  ":has(>x)" ∈ ({["#nav .item"; ".b"; ":has(>x)"; "div"]} : gset string).
Proof.
  apply (proj1 (proj2 (@dom_stage_fail_open Demo.site Demo.site_selectors))
           ["index.html"] _
           {| dm_unused_selectors := ["#nav .item"; ".b"; ":has(>x)"; "div"] |}).
  - vm_compute. reflexivity.
  - vm_compute. reflexivity.
  - intros html_file soup nodes _ _. simpl. discriminate.
Defined.

(** The identifiers of a selector are the tokens written in it after a
    [#] or after a [.]. *)
Lemma identifiers_spec selector x :
  x ∈ identifiers selector
  ↔ token_after "#" x selector ∨ token_after "." x selector.
Proof.
  unfold identifiers, REGEX_ID_findall, REGEX_CLASS_findall.
  by rewrite elem_of_app, !findall_spec.
Qed.

(** C3. Exact characterization of the grep stage: when the source files can
    be read, the stage returns, and it removes a candidate exactly when some
    id or class written in that candidate (a non-empty run of [[a-zA-Z0-9]]
    after a [#] or a [.], not extensible to the right) occurs as a whole
    word in one of the texts.  So a candidate none of whose identifiers
    occurs (or that has no identifier) stays, and one identifier found is
    enough to remove a selector with several. *)
Theorem grep_stage_exact `{ext : Externals}
    (selectors : gset string) (src_files : list string) (contents : list string) :
  mapM file_get_contents src_files = Ok contents →
  ∃ remaining data,
    _eliminate_selectors_from_idclass_grepping selectors src_files = Ok (remaining, data)
    ∧ ∀ selector, selector ∈ selectors →
        (selector ∉ remaining
         ↔ ∃ x content, (token_after "#" x selector ∨ token_after "." x selector)
                        ∧ content ∈ contents ∧ whole_word_in x content).
Proof.
  intros Hread. rewrite grep_stage_eq, Hread. simpl.
  eexists _, _. split; [reflexivity|]. intros selector Hin.
  rewrite elem_of_filter. setoid_rewrite <- identifiers_spec.
  assert (Hword : ∀ x, x ∈ identifiers selector →
            occurs_in contents x = true
            ↔ ∃ content, content ∈ contents ∧ whole_word_in x content).
  { intros x Hx. unfold occurs_in. rewrite existsb_exists.
    assert (x ≠ "" ∧ all_alnum x = true) as [Hne Hal].
    { unfold identifiers in Hx. apply elem_of_app in Hx as [Hx|Hx];
        by apply findall_token in Hx. }
    setoid_rewrite <- list_elem_of_In.
    by setoid_rewrite (re_search_word_spec x _ Hne Hal). }
  destruct (grep_kept contents selector) eqn:Hk.
  - split; [tauto|]. intros (x & content & Hx & Hc & Hw).
    rewrite grep_kept_true in Hk. specialize (Hk x Hx).
    apply not_true_iff_false in Hk. destruct Hk. apply Hword; eauto.
  - split; [|by intros _ [? _]]. intros _.
    unfold grep_kept in Hk. apply negb_false_iff, existsb_exists in Hk as (x & Hx & Ho).
    apply list_elem_of_In in Hx. apply Hword in Ho as (content & Hc & Hw); [|done].
    eauto.
Qed.

(** On the demo site, whose only source text is [var b = nav;]: the
    compound selector [#nav .item] is removed because [nav] is found,
    although [item] occurs nowhere; [.b] is removed; [#a] stays, since [a]
    occurs only inside other words; and [div], which has no identifier,
    stays. *)
Lemma grep_stage_exact_witness :
  ∃ remaining data,
    @_eliminate_selectors_from_idclass_grepping Demo.site Demo.site_selectors ["app.js"]
    = Ok (remaining, data)
    ∧ ("#nav .item" ∉ remaining) ∧ (".b" ∉ remaining)
    ∧ "#a" ∈ remaining ∧ "div" ∈ remaining.
Proof.
  assert (Hin : ∀ selector, selector ∈ ["#nav .item"; ".b"; "#a"; "div"] →
            selector ∈ Demo.site_selectors).
  { intros selector Hs. unfold Demo.site_selectors. set_solver. }
  assert (Hread : mapM (@file_get_contents Demo.site) ["app.js"] = Ok ["var b = nav;"])
    by reflexivity.
  destruct (@grep_stage_exact Demo.site Demo.site_selectors ["app.js"] ["var b = nav;"]
              Hread) as (remaining & data & Hrun & Hiff).
  exists remaining, data. split; [exact Hrun|]. clear Hrun Hread.
  assert (Hstays : ∀ selector, selector ∈ Demo.site_selectors →
            (∀ x, x ∈ identifiers selector → re_search_word x "var b = nav;" = false) →
            selector ∈ remaining).
  { intros selector Hs Hnone.
    destruct (decide (selector ∈ remaining)) as [Hr|Hr]; [exact Hr|].
    apply (Hiff selector Hs) in Hr as (x & content & Hx & Hc & Hw).
    assert (x ≠ "" ∧ all_alnum x = true) as [Hne Hal].
    { destruct Hx as [(? & ? & _ & ? & ? & _)|(? & ? & _ & ? & ? & _)];
        split; assumption. }
    apply identifiers_spec in Hx.
    apply list_elem_of_singleton in Hc as ->.
    apply (re_search_word_spec x _ Hne Hal) in Hw.
    rewrite (Hnone x Hx) in Hw. discriminate Hw. }
  split_and!.
  - apply Hiff; [apply Hin; repeat constructor|].
    exists "nav", "var b = nav;". split_and!.
    + left. exists "", " .item". split_and!; [reflexivity|discriminate|reflexivity..].
    + apply list_elem_of_here.
    + exists "var b = ", ";". split_and!; reflexivity.
  - apply Hiff; [apply Hin; repeat constructor|].
    exists "b", "var b = nav;". split_and!.
    + right. exists "", "". split_and!; [reflexivity|discriminate|reflexivity..].
    + apply list_elem_of_here.
    + exists "var ", " = nav;". split_and!; reflexivity.
  - apply Hstays; [apply Hin; repeat constructor|].
    assert (Hid : identifiers "#a" = ["a"]) by reflexivity.
    intros x Hx. rewrite Hid in Hx.
    apply list_elem_of_singleton in Hx as ->. reflexivity.
  - apply Hstays; [apply Hin; repeat constructor|].
    assert (Hid : identifiers "div" = []) by reflexivity.
    intros x Hx. rewrite Hid in Hx. apply elem_of_nil in Hx. destruct Hx.
Defined.

(** The selector [#nav .item] goes as soon as [nav] is found, although
    [item] occurs nowhere. *)
Example grep_stage_compound :
  value (@_eliminate_selectors_from_idclass_grepping Demo.site {["#nav .item"; ".item"]}
           ["app.js"])
  = Some ({[".item"]},
          {| ic_ids := {["nav"]}; ic_classes := {["item"]};
             ic_unfindable_ids := ∅; ic_unfindable_classes := {["item"]};
             ic_unused_selectors := [".item"] |}).
Proof. vm_compute. reflexivity. Qed.

(** C4. No-input stability: with no HTML file and no other source file,
    both stages are skipped, the record of the CSS file has no entry of
    either stage, and its unused selectors are, as a set, the selectors
    extracted from the file. *)
Theorem no_input_stability `{ext : Externals} (css_file : string) (selectors : gset string) :
  extract_css_selectors css_file = Ok selectors →
  analyse_css_file css_file ∅ ∅
  = Ok {| r_selectors := selectors;
          r_dom_matching := None;
          r_idclass_elimination := None;
          r_unused_selectors := sorted selectors |}
  ∧ list_to_set (sorted selectors) = selectors.
Proof.
  intros Hextract. split; [|apply list_to_set_sorted].
  unfold analyse_css_file. rewrite Hextract. simpl.
  rewrite bool_decide_eq_false_2 by (intros Hne; by apply Hne). done.
Qed.

Lemma no_input_stability_witness :
  @analyse_css_file Demo.site "site.css" ∅ ∅
  = Ok {| r_selectors := Demo.site_selectors;
          r_dom_matching := None;
          r_idclass_elimination := None;
          r_unused_selectors := sorted Demo.site_selectors |}
  ∧ list_to_set (sorted Demo.site_selectors) = Demo.site_selectors.
Proof.
  apply (@no_input_stability Demo.site "site.css" Demo.site_selectors).
  vm_compute. reflexivity.
Defined.

(** The same at the level of [main]: when the arguments hold no HTML and no
    other source file, every record of the results has this shape. *)
Lemma main_no_input `{ext : Externals} (args : list string) results css_file data :
  collect_files args (Some [".html"]) = ∅ →
  collect_files args (Some [".php"; ".py"; ".rb"; ".js"]) = ∅ →
  main args = Ok results →
  results !! css_file = Some data →
  r_dom_matching data = None ∧ r_idclass_elimination data = None
  ∧ list_to_set (r_unused_selectors data) = r_selectors data.
Proof.
  unfold main. intros -> -> Hmain Hlookup.
  rewrite (main_loop_lookup _ _ _ _ _ css_file Hmain) in Hlookup.
  destruct (decide (css_file ∈ _)) as [Hin|Hnin]; [|by rewrite lookup_empty in Hlookup].
  destruct (analyse_css_file css_file ∅ ∅) as [data'|e] eqn:Ha; [|done].
  injection Hlookup as ->.
  destruct (analyse_css_file_inv _ _ _ _ Ha) as (u1 & u2 & Hx & Hd & Hg & Hu).
  rewrite bool_decide_eq_false_2 in Hd by (intros Hne; by apply Hne).
  rewrite bool_decide_eq_false_2 in Hg by (intros Hne; by apply Hne).
  destruct Hd as [-> Hd]. destruct Hg as [-> Hg].
  by rewrite Hu, list_to_set_sorted.
Qed.

(** C6, as the spec states it, fails: [main] has no handler around the
    processing of a CSS file.  On the site below [site.css] can be analysed
    and [bad.css] cannot be read; the run ends with the exception of
    [bad.css] and reports nothing, not even for [site.css].  Without any
    input path the run is not fatal either: it ends with empty results. *)
Lemma main_aborts_on_unreadable_css :
  value (@extract_css_selectors Demo.site "site.css") = Some Demo.site_selectors
  ∧ @main Demo.site ["site.css"; "bad.css"; "index.html"; "app.js"]
    = Raise (IOError "bad.css")
  ∧ ¬ (∃ results,
         @main Demo.site ["site.css"; "bad.css"; "index.html"; "app.js"] = Ok results
         ∧ is_Some (results !! "site.css"))
  ∧ @main Demo.site [] = Ok ∅.
Proof.
  assert (Hmain : @main Demo.site ["site.css"; "bad.css"; "index.html"; "app.js"]
                  = Raise (IOError "bad.css")) by (vm_compute; reflexivity).
  split_and!.
  - vm_compute. reflexivity.
  - exact Hmain.
  - intros (results & Hok & _). rewrite Hmain in Hok. discriminate.
  - reflexivity.
Qed.

(** C6, amended. An exception raised while the selectors of one CSS file are
    extracted is not caught by [main]: it ends the run, and no results are
    produced for any file.  When the analysis of every CSS file succeeds,
    the results hold one record per CSS file.  A run without any input path
    is not an error: it returns empty results. *)
Theorem css_failure_aborts_main `{ext : Externals} (args : list string) :
  let css_files := collect_files args (Some [".css"]) in
  let html_files := collect_files args (Some [".html"]) in
  let src_files := collect_files args (Some [".php"; ".py"; ".rb"; ".js"]) in
  (∀ css_file,
     css_file ∈ css_files → value (extract_css_selectors css_file) = None →
     value (main args) = None)
  ∧ ((∀ css_file, css_file ∈ css_files →
        is_Some (value (analyse_css_file css_file html_files src_files))) →
     ∃ results,
       main args = Ok results
       ∧ ∀ css_file,
           results !! css_file
           = if decide (css_file ∈ css_files)
             then value (analyse_css_file css_file html_files src_files)
             else None)
  ∧ main [] = Ok ∅.
Proof.
  intros css_files html_files src_files. split_and!.
  - intros css_file Hin Hraise. unfold main.
    apply (main_loop_raises _ _ _ _ css_file).
    + by apply elem_of_elements.
    + by apply analyse_css_file_raises.
  - intros Hall. unfold main. fold css_files html_files src_files.
    destruct (main_loop_returns (elements css_files) html_files src_files ∅)
      as [results Hres].
    { intros css_file Hin. by apply Hall, elem_of_elements. }
    destruct (main_loop _ _ _ _) as [results'|e] eqn:Hloop; [|done].
    exists results'. split; [done|]. intros css_file.
    rewrite (main_loop_lookup _ _ _ _ _ css_file Hloop), lookup_empty.
    destruct (decide (css_file ∈ elements css_files)) as [Hin|Hnin];
      destruct (decide (css_file ∈ css_files)) as [Hin'|Hnin']; try done.
    + by apply elem_of_elements in Hin.
    + by apply elem_of_elements in Hin'.
  - reflexivity.
Qed.

Lemma css_failure_aborts_main_witness :
  value (@main Demo.site ["site.css"; "bad.css"; "index.html"; "app.js"]) = None.
Proof.
  apply (proj1 (@css_failure_aborts_main Demo.site
                  ["site.css"; "bad.css"; "index.html"; "app.js"]) "bad.css").
  - vm_compute. reflexivity.
  - reflexivity.
Defined.

(** The closed forms of the two orders. *)
Lemma dom_then_grep_eq `{ext : Externals} (selectors : gset string) html_files src_files :
  dom_then_grep selectors html_files src_files
  = soups ← mapM open_BeautifulSoup html_files;
    contents ← mapM file_get_contents src_files;
    mret (filter (λ s, dom_kept soups s = true ∧ grep_kept contents s = true) selectors).
Proof.
  unfold dom_then_grep. rewrite dom_stage_eq.
  destruct (mapM open_BeautifulSoup html_files) as [soups|e1]; simpl; [|done].
  rewrite grep_stage_eq.
  destruct (mapM file_get_contents src_files) as [contents|e2]; simpl; [|done].
  f_equal. apply set_eq; intros s. rewrite !elem_of_filter. tauto.
Qed.

Lemma grep_then_dom_eq `{ext : Externals} (selectors : gset string) html_files src_files :
  grep_then_dom selectors html_files src_files
  = contents ← mapM file_get_contents src_files;
    soups ← mapM open_BeautifulSoup html_files;
    mret (filter (λ s, dom_kept soups s = true ∧ grep_kept contents s = true) selectors).
Proof.
  unfold grep_then_dom. rewrite grep_stage_eq.
  destruct (mapM file_get_contents src_files) as [contents|e2]; simpl; [|done].
  rewrite dom_stage_eq.
  destruct (mapM open_BeautifulSoup html_files) as [soups|e1]; simpl; [|done].
  f_equal. apply set_eq; intros s. rewrite !elem_of_filter. tauto.
Qed.

(** C7. Stage-order commutativity: running the DOM stage and then the grep
    stage gives the same set of unused selectors as running the grep stage
    and then the DOM stage; one order raises exactly when the other does,
    and when all files can be read both return the candidates that neither
    stage clears. *)
Theorem stage_order_commutes `{ext : Externals}
    (selectors : gset string) (html_files src_files : list string) :
  value (dom_then_grep selectors html_files src_files)
  = value (grep_then_dom selectors html_files src_files)
  ∧ ∀ soups contents,
      mapM open_BeautifulSoup html_files = Ok soups →
      mapM file_get_contents src_files = Ok contents →
      dom_then_grep selectors html_files src_files
      = Ok (filter (λ s, dom_kept soups s = true ∧ grep_kept contents s = true) selectors)
      ∧ grep_then_dom selectors html_files src_files
        = Ok (filter (λ s, dom_kept soups s = true ∧ grep_kept contents s = true)
                selectors).
Proof.
  rewrite dom_then_grep_eq, grep_then_dom_eq. split.
  - by destruct (mapM open_BeautifulSoup html_files),
         (mapM file_get_contents src_files).
  - by intros soups contents -> ->.
Qed.

Lemma stage_order_commutes_witness :
  @dom_then_grep Demo.site Demo.site_selectors ["index.html"] ["app.js"]
  = Ok {[":has(>x)"; "div"]}
  ∧ @grep_then_dom Demo.site Demo.site_selectors ["index.html"] ["app.js"]
    = Ok {[":has(>x)"; "div"]}.
Proof.
  replace ({[":has(>x)"; "div"]} : gset string)
    with (filter (λ s, @dom_kept Demo.site [0] s = true
                       ∧ grep_kept ["var b = nav;"] s = true) Demo.site_selectors)
    by (vm_compute; reflexivity).
  apply (proj2 (@stage_order_commutes Demo.site Demo.site_selectors
                  ["index.html"] ["app.js"]) [0] ["var b = nav;"]); reflexivity.
Defined.

(** C8. Identifier extraction contract: the ids (resp. classes) returned
    are exactly the tokens written after a [#] (resp. a [.]) in some
    selector, a token being a non-empty run of [[a-zA-Z0-9]] that cannot be
    extended to the right; the keys of the origin map are exactly these
    identifiers with their prefix, so an id and a class of the same text
    have different keys; and the selectors listed under ['#' + x] (resp.
    ['.' + x]) are exactly the given selectors that contain [#x] (resp.
    [.x]) with [x] such a token. *)
Theorem extraction_contract (selectors : gset string) :
  let '(ids, classes, origins) := extract_ids_and_classes_from_selectors selectors in
  (∀ x, x ∈ ids ↔ ∃ s, s ∈ selectors ∧ token_after "#" x s)
  ∧ (∀ x, x ∈ classes ↔ ∃ s, s ∈ selectors ∧ token_after "." x s)
  ∧ (∀ k, k ∈ dom origins
          ↔ (∃ x, x ∈ ids ∧ k = String "#" x) ∨ (∃ x, x ∈ classes ∧ k = String "." x))
  ∧ (∀ x s, s ∈ origins_get origins (String "#" x) ↔ s ∈ selectors ∧ token_after "#" x s)
  ∧ (∀ x s, s ∈ origins_get origins (String "." x) ↔ s ∈ selectors ∧ token_after "." x s)
  ∧ (∀ x y, String "#" x ≠ String "." y).
Proof.
  pose proof (extract_ids selectors) as Hids.
  pose proof (extract_classes selectors) as Hclasses.
  pose proof (extract_origins selectors) as Horigins.
  pose proof (extract_dom selectors) as Hdom.
  destruct (extract_ids_and_classes_from_selectors selectors) as [[ids classes] origins].
  simpl in *.
  assert (Hid : ∀ x s, x ∈ REGEX_ID_findall s ↔ token_after "#" x s)
    by (intros; by apply findall_spec).
  assert (Hclass : ∀ x s, x ∈ REGEX_CLASS_findall s ↔ token_after "." x s)
    by (intros; by apply findall_spec).
  split_and!.
  - intros x. rewrite Hids. by setoid_rewrite Hid.
  - intros x. rewrite Hclasses. by setoid_rewrite Hclass.
  - intros k. rewrite Hdom. unfold key_of. setoid_rewrite Hids.
    setoid_rewrite Hclasses. split.
    + intros (s & Hs & [(x & Hx & ->)|(x & Hx & ->)]); eauto 10.
    + intros [(x & (s & Hs & Hx) & ->)|(x & (s & Hs & Hx) & ->)]; eauto 10.
  - intros x s. by rewrite Horigins, key_of_id, Hid.
  - intros x s. by rewrite Horigins, key_of_class, Hclass.
  - intros x y [=].
Qed.

(** The id [x] and the class [x] of two selectors are kept apart. *)
Example extraction_no_collision :
  extract_ids_and_classes_from_selectors {["#x"; "p.x"]}
  = ({["x"]}, {["x"]}, {[ "#x" := ["#x"]; ".x" := ["p.x"] ]}).
Proof. vm_compute. reflexivity. Qed.

(** C9. The stages do not mutate their input: run on a store in which the
    reference [selectors] holds the set [S], each stage leaves every object
    of the caller as it was (the store is only extended by new objects), so
    [selectors] still holds [S]; and when the stage returns, the reference
    it returns is a new object, different from [selectors], that holds the
    narrowed set. *)
Theorem stages_leave_input_unchanged `{ext : Externals}
    (σ : list (gset string)) (selectors : nat) (S : gset string) (files : list string) :
  σ !! selectors = Some S →
  (∃ new res,
     Store._eliminate_selectors_from_dom_matching selectors files σ = (res, σ ++ new)
     ∧ (σ ++ new) !! selectors = Some S
     ∧ ∀ unused data, res = Ok (unused, data) →
         unused ≠ selectors ∧ σ !! unused = None
         ∧ ∃ remaining,
             (σ ++ new) !! unused = Some remaining
             ∧ _eliminate_selectors_from_dom_matching S files = Ok (remaining, data))
  ∧ (∃ new res,
       Store._eliminate_selectors_from_idclass_grepping selectors files σ = (res, σ ++ new)
       ∧ (σ ++ new) !! selectors = Some S
       ∧ ∀ unused sdata, res = Ok (unused, sdata) →
           unused ≠ selectors ∧ σ !! unused = None
           ∧ ∃ remaining data,
               (σ ++ new) !! unused = Some remaining
               ∧ _eliminate_selectors_from_idclass_grepping S files = Ok (remaining, data)).
Proof.
  intros HS. pose proof (lookup_lt_Some _ _ _ HS) as Hlt. split.
  - destruct (dom_stage_run selectors files σ S HS) as (new & Hrun & Hnew).
    eexists new, _. split; [exact Hrun|]. split; [by rewrite lookup_app_l|].
    intros unused data Hres.
    destruct (_eliminate_selectors_from_dom_matching S files) as [[remaining d]|e];
      [|done].
    injection Hres as <- <-. split; [lia|]. split; [by apply lookup_ge_None|].
    exists remaining. split; [by apply (Hnew remaining d)|done].
  - destruct (grep_stage_run selectors files σ S HS) as (new & res & Hrun & Hres).
    exists new, res. split; [exact Hrun|]. split; [by rewrite lookup_app_l|].
    intros unused sdata ->.
    destruct (_eliminate_selectors_from_idclass_grepping S files)
      as [[remaining d]|e]; [|done].
    destruct Hres as (unused' & sdata' & [= -> ->] & Hge & Hlookup & _).
    split; [lia|]. split; [by apply lookup_ge_None|]. eauto.
Qed.

Lemma stages_leave_input_unchanged_witness :
  (∃ new res,
     @Store._eliminate_selectors_from_dom_matching Demo.site 0 ["index.html"]
       [Demo.site_selectors] = (res, [Demo.site_selectors] ++ new)
     ∧ ([Demo.site_selectors] ++ new) !! 0 = Some Demo.site_selectors
     ∧ ∀ unused data, res = Ok (unused, data) →
         unused ≠ 0 ∧ [Demo.site_selectors] !! unused = None
         ∧ ∃ remaining,
             ([Demo.site_selectors] ++ new) !! unused = Some remaining
             ∧ @_eliminate_selectors_from_dom_matching Demo.site Demo.site_selectors
                 ["index.html"] = Ok (remaining, data))
  ∧ (∃ new res,
       @Store._eliminate_selectors_from_idclass_grepping Demo.site 0 ["index.html"]
         [Demo.site_selectors] = (res, [Demo.site_selectors] ++ new)
       ∧ ([Demo.site_selectors] ++ new) !! 0 = Some Demo.site_selectors
       ∧ ∀ unused sdata, res = Ok (unused, sdata) →
           unused ≠ 0 ∧ [Demo.site_selectors] !! unused = None
           ∧ ∃ remaining data,
               ([Demo.site_selectors] ++ new) !! unused = Some remaining
               ∧ @_eliminate_selectors_from_idclass_grepping Demo.site
                   Demo.site_selectors ["index.html"] = Ok (remaining, data)).
Proof.
  apply (@stages_leave_input_unchanged Demo.site [Demo.site_selectors] 0
           Demo.site_selectors ["index.html"]).
  reflexivity.
Defined.

(** The DOM stage on the site: the caller's set is object 0 and is left as
    it was; the stage returns object 1. *)
Example dom_stage_store_run :
  (let '(res, σ') :=
     @Store._eliminate_selectors_from_dom_matching Demo.site 0 ["index.html"]
       [Demo.site_selectors] in
   (fst <$> value res, σ' !! 0, σ' !! 1))
  = (Some 1, Some Demo.site_selectors,
     Some {["#nav .item"; ".b"; ":has(>x)"; "div"]}).
Proof. vm_compute. reflexivity. Qed.

(** C10. Sorted, deterministic reporting: the [unused_selectors] entry of the
    results of each stage and of the record of a CSS file is [sorted] of the
    corresponding set of unused selectors, and [sorted] of a set is the list
    of its members, each once, in ascending order of strings; sorting the
    members listed in any other order gives the same list. *)
Theorem unused_selectors_sorted `{ext : Externals} :
  (∀ s : gset string,
     Sorted String.le (sorted s) ∧ NoDup (sorted s)
     ∧ (∀ x, x ∈ sorted s ↔ x ∈ s)
     ∧ ∀ l, l ≡ₚ elements s → merge_sort String.le l = sorted s)
  ∧ (∀ selectors html_files remaining data,
       _eliminate_selectors_from_dom_matching selectors html_files = Ok (remaining, data) →
       dm_unused_selectors data = sorted remaining)
  ∧ (∀ selectors src_files remaining data,
       _eliminate_selectors_from_idclass_grepping selectors src_files
       = Ok (remaining, data) →
       ic_unused_selectors data = sorted remaining)
  ∧ (∀ css_file html_files src_files data,
       analyse_css_file css_file html_files src_files = Ok data →
       ∃ unused1 unused2,
         (if bool_decide (html_files ≠ ∅)
          then ∃ dom, _eliminate_selectors_from_dom_matching
                        (r_selectors data) (elements html_files) = Ok (unused1, dom)
          else unused1 = r_selectors data)
         ∧ (if bool_decide (src_files ≠ ∅)
            then ∃ idclass, _eliminate_selectors_from_idclass_grepping
                              unused1 (elements src_files) = Ok (unused2, idclass)
            else unused2 = unused1)
         ∧ r_unused_selectors data = sorted unused2).
Proof.
  split_and!.
  - intros s. split_and!.
    + apply sorted_Sorted.
    + apply sorted_NoDup.
    + apply elem_of_sorted.
    + apply sorted_order_independent.
  - intros selectors html_files remaining data. rewrite dom_stage_eq.
    destruct (mapM open_BeautifulSoup html_files) as [soups|e]; simpl; [|done].
    by intros [= <- <-].
  - intros selectors src_files remaining data. rewrite grep_stage_eq.
    destruct (mapM file_get_contents src_files) as [contents|e]; simpl; [|done].
    by intros [= <- <-].
  - intros css_file html_files src_files data Hdata.
    destruct (analyse_css_file_inv _ _ _ _ Hdata) as (u1 & u2 & _ & Hd & Hg & Hu).
    exists u1, u2. split_and!; [| |done].
    + destruct (bool_decide (html_files ≠ ∅)); [|tauto].
      destruct Hd as (dom & ? & _). eauto.
    + destruct (bool_decide (src_files ≠ ∅)); [|tauto].
      destruct Hg as (idc & ? & _). eauto.
Qed.

Lemma unused_selectors_sorted_witness :
  dm_unused_selectors {| dm_unused_selectors := ["#nav .item"; ".b"; ":has(>x)"; "div"] |}
  = sorted {["#nav .item"; ".b"; ":has(>x)"; "div"]}.
Proof.
  apply (proj1 (proj2 (@unused_selectors_sorted Demo.site))
           Demo.site_selectors ["index.html"]).
  vm_compute. reflexivity.
Defined.

(** The report of the whole run on the site. *)
Example main_site_report :
  (λ results, r_unused_selectors <$> results !! "site.css")
    <$> value (@main Demo.site ["site.css"; "index.html"; "app.js"])
  = Some (Some [":has(>x)"; "div"]).
Proof. vm_compute. reflexivity. Qed.

(** * Further properties of the program *)

(** ** [collect_files] *)

Section CollectFiles.
Context `{ext : Externals}.

(** [path] is collected from [seed]: the seed itself when it is a file that
    passes the extension check, otherwise, when the seed is a directory, a
    file below it that passes the check. *)
Definition collected_from (extensions : option (list string)) (seed path : string) : Prop :=
  (isfile seed = true ∧ check_extension extensions seed = true ∧ path = seed)
  ∨ ((isfile seed && check_extension extensions seed)%bool = false
     ∧ isdir seed = true
     ∧ ∃ dirpath dirnames filenames filename,
         (dirpath, dirnames, filenames) ∈ walk seed ∧ filename ∈ filenames
         ∧ path = path_join dirpath filename
         ∧ check_extension extensions path = true).

Lemma collect_filenames extensions dirpath filenames : ∀ (files : gset string) path,
  path ∈ foldl (λ files filename,
                  let path := path_join dirpath filename in
                  if check_extension extensions path then files ∪ {[path]} else files)
               files filenames
  ↔ path ∈ files
    ∨ ∃ filename, filename ∈ filenames ∧ path = path_join dirpath filename
                  ∧ check_extension extensions path = true.
Proof.
  induction filenames as [|f filenames IH]; intros files path; simpl.
  - split; [auto|]. intros [?|(? & Hf & _)]; [done|]. by apply elem_of_nil in Hf.
  - rewrite IH. clear IH. split.
    + intros [Hin|(f' & Hf' & -> & Hc)].
      * destruct (check_extension extensions (path_join dirpath f)) eqn:Hc; [|auto].
        apply elem_of_union in Hin as [?|Hx]; [auto|]. apply elem_of_singleton in Hx as ->.
        right. exists f. split; [apply list_elem_of_here|done].
      * right. exists f'. split; [by apply list_elem_of_further|done].
    + intros [?|(f' & Hf' & -> & Hc)].
      * left. destruct (check_extension _ _); [apply elem_of_union|]; auto.
      * apply elem_of_cons in Hf' as [-> | Hf'].
        -- left. rewrite Hc. apply elem_of_union. right. by apply elem_of_singleton.
        -- right. eauto.
Qed.

Lemma collect_walk extensions (triples : list (string * list string * list string)) :
  ∀ (files : gset string) path,
  path ∈ foldl (λ files '(dirpath, dirnames, filenames),
                  foldl (λ files filename,
                           let path := path_join dirpath filename in
                           if check_extension extensions path
                           then files ∪ {[path]} else files)
                        files filenames)
               files triples
  ↔ path ∈ files
    ∨ ∃ dirpath dirnames filenames filename,
        (dirpath, dirnames, filenames) ∈ triples ∧ filename ∈ filenames
        ∧ path = path_join dirpath filename
        ∧ check_extension extensions path = true.
Proof.
  induction triples as [|[[d ds] fs] triples IH]; intros files path; simpl.
  - split; [auto|]. intros [?|(? & ? & ? & ? & Ht & _)]; [done|].
    by apply elem_of_nil in Ht.
  - rewrite IH, collect_filenames. clear IH. split.
    + intros [[?|(f & Hf & ? & ?)]|(d' & ds' & fs' & f & Ht & ?)]; [auto| |].
      * right. exists d, ds, fs, f. split; [apply list_elem_of_here|done].
      * right. exists d', ds', fs', f. split; [by apply list_elem_of_further|done].
    + intros [?|(d' & ds' & fs' & f & Ht & Hf & ? & ?)]; [auto|].
      apply elem_of_cons in Ht as [[= -> -> ->] | Ht]; [eauto 10|].
      right. eauto 10.
Qed.

Lemma collect_seeds extensions seeds : ∀ (files : gset string) path,
  path ∈ foldl (λ files seed,
             if (isfile seed && check_extension extensions seed)%bool
             then files ∪ {[seed]}
             else if isdir seed
             then foldl (λ files '(dirpath, dirnames, filenames),
                           foldl (λ files filename,
                                    let path := path_join dirpath filename in
                                    if check_extension extensions path
                                    then files ∪ {[path]} else files)
                                 files filenames)
                        files (walk seed)
             else files)
          files seeds
  ↔ path ∈ files ∨ ∃ seed, seed ∈ seeds ∧ collected_from extensions seed path.
Proof.
  induction seeds as [|seed seeds IH]; intros files path; simpl.
  - split; [auto|]. intros [?|(? & Hs & _)]; [done|]. by apply elem_of_nil in Hs.
  - rewrite IH. clear IH.
    assert (Hstep :
      path ∈ (if (isfile seed && check_extension extensions seed)%bool
              then files ∪ {[seed]}
              else if isdir seed
              then foldl (λ files '(dirpath, dirnames, filenames),
                            foldl (λ files filename,
                                     let path := path_join dirpath filename in
                                     if check_extension extensions path
                                     then files ∪ {[path]} else files)
                                  files filenames)
                         files (walk seed)
              else files)
      ↔ path ∈ files ∨ collected_from extensions seed path).
    { unfold collected_from.
      destruct (isfile seed && check_extension extensions seed)%bool eqn:Hfile.
      - apply andb_true_iff in Hfile as [Hf Hc].
        rewrite elem_of_union, elem_of_singleton. split.
        + intros [?| ->]; auto.
        + intros [?|[(_ & _ & ->)|(? & _)]]; auto. done.
      - destruct (isdir seed) eqn:Hdir.
        + rewrite collect_walk. split.
          * intros [?|?]; auto.
          * intros [?|[(Hf & Hc & _)|(_ & _ & ?)]]; auto.
            by rewrite Hf, Hc in Hfile.
        + split; [auto|]. intros [?|[(Hf & Hc & _)|(_ & ? & _)]]; auto.
          * by rewrite Hf, Hc in Hfile.
          * done. }
    rewrite Hstep. split.
    + intros [[?|?]|(s & Hs & ?)]; [auto| |].
      * right. exists seed. split; [apply list_elem_of_here|done].
      * right. exists s. split; [by apply list_elem_of_further|done].
    + intros [?|(s & Hs & ?)]; [auto|].
      apply elem_of_cons in Hs as [-> | Hs]; eauto.
Qed.

Lemma elem_of_collect_files seeds extensions path :
  path ∈ collect_files seeds extensions
  ↔ ∃ seed, seed ∈ seeds ∧ collected_from extensions seed path.
Proof.
  unfold collect_files. rewrite collect_seeds, elem_of_empty. tauto.
Qed.

Lemma collected_from_check extensions seed path :
  collected_from extensions seed path → check_extension extensions path = true.
Proof. intros [(_ & ? & ->)|(_ & _ & ? & ? & ? & ? & _ & _ & _ & ?)]; done. Qed.

End CollectFiles.

(** X1. [collect_files] collects exactly this: a seed that is a file passing
    the extension check; and, for a seed that is not (so also a file seed
    with another extension) and that is a directory, the files found by the
    walk below it that pass the check.  Any other seed is ignored. *)
Theorem collect_files_exact `{ext : Externals}
    (seeds : list string) (extensions : option (list string)) (path : string) :
  path ∈ collect_files seeds extensions
  ↔ ∃ seed, seed ∈ seeds ∧ collected_from extensions seed path.
Proof. unfold collect_files. rewrite collect_seeds, elem_of_empty. tauto. Qed.

Lemma collect_files_check `{ext : Externals} seeds extensions path :
  path ∈ collect_files seeds extensions → check_extension extensions path = true.
Proof.
  intros (seed & _ & Hc)%elem_of_collect_files. by apply collected_from_check in Hc.
Qed.

(** X2. Every file collected under a list of extensions has one of these
    extensions (as [os.path.splitext], lower-cased, gives it). *)
Theorem collect_files_extension `{ext : Externals}
    (seeds : list string) (extensions : list string) (path : string) :
  path ∈ collect_files seeds (Some extensions) →
  splitext_lower path ∈ extensions.
Proof.
  intros Hc%collect_files_check. simpl in Hc. by apply bool_decide_eq_true in Hc.
Qed.

Lemma collect_files_extension_witness :
  @splitext_lower Demo.site "site.css" ∈ [".css"].
Proof.
  apply (@collect_files_extension Demo.site ["site.css"; "app.js"; "gone.css"]).
  vm_compute. reflexivity.
Defined.

(** X3. The three sets of files [main] works with are pairwise disjoint: no
    file is at once a CSS file to analyse, an HTML document and a source
    file to search. *)
Theorem main_file_sets_disjoint `{ext : Externals} (args : list string) :
  collect_files args (Some [".css"]) ## collect_files args (Some [".html"])
  ∧ collect_files args (Some [".css"])
    ## collect_files args (Some [".php"; ".py"; ".rb"; ".js"])
  ∧ collect_files args (Some [".html"])
    ## collect_files args (Some [".php"; ".py"; ".rb"; ".js"]).
Proof.
  split_and!; intros path H1%collect_files_check H2%collect_files_check;
    simpl in H1, H2; apply bool_decide_eq_true in H1, H2;
    set_unfold; intuition congruence.
Qed.

Lemma main_file_sets_disjoint_witness :
  @collect_files Demo.site ["site.css"; "index.html"; "app.js"] (Some [".css"])
  ## @collect_files Demo.site ["site.css"; "index.html"; "app.js"] (Some [".html"]).
Proof.
  apply (@main_file_sets_disjoint Demo.site ["site.css"; "index.html"; "app.js"]).
Defined.

(** X4. The files collected from a list of seeds are the union of the files
    collected from each part of it, so neither the order of the seeds nor a
    seed given twice changes the result. *)
Theorem collect_files_union `{ext : Externals}
    (seeds1 seeds2 : list string) (extensions : option (list string)) :
  collect_files (seeds1 ++ seeds2) extensions
  = collect_files seeds1 extensions ∪ collect_files seeds2 extensions
  ∧ ∀ seeds', (∀ seed, seed ∈ seeds1 ↔ seed ∈ seeds') →
      collect_files seeds' extensions = collect_files seeds1 extensions.
Proof.
  split.
  - apply set_eq; intros path.
    rewrite elem_of_union, !elem_of_collect_files.
    setoid_rewrite elem_of_app. naive_solver.
  - intros seeds' Hsame. apply set_eq; intros path.
    rewrite !elem_of_collect_files. by setoid_rewrite Hsame.
Qed.

(** ** [extract_css_selectors] *)

Lemma elem_of_css_fold rules : ∀ (selectors : gset string) s,
  s ∈ foldl (λ selectors rule,
               match rule with
               | CSSStyleRule selectorList => selectors ∪ list_to_set selectorList
               | CSSOtherRule => selectors
               end)
            selectors rules
  ↔ s ∈ selectors ∨ ∃ selectorList, CSSStyleRule selectorList ∈ rules ∧ s ∈ selectorList.
Proof.
  induction rules as [|rule rules IH]; intros selectors s; simpl.
  - split; [auto|]. intros [?|(? & Hr & _)]; [done|]. by apply elem_of_nil in Hr.
  - rewrite IH. clear IH. split.
    + intros [Hin|(l & Hl & ?)].
      * destruct rule as [l|]; [|auto].
        apply elem_of_union in Hin as [?|Hin]; [auto|].
        apply elem_of_list_to_set in Hin. right. exists l.
        split; [apply list_elem_of_here|done].
      * right. exists l. split; [by apply list_elem_of_further|done].
    + intros [?|(l & Hl & Hs)].
      * left. destruct rule; [apply elem_of_union|]; auto.
      * apply elem_of_cons in Hl as [<- | Hl]; [|eauto].
        left. apply elem_of_union. right. by apply elem_of_list_to_set.
Qed.

(** X5. [extract_css_selectors] raises what the parser raises, and otherwise
    returns exactly the selectors of the selector lists of the style rules
    of the sheet: the other rules of the sheet give nothing, and a selector
    written in several rules is returned once. *)
Theorem extract_css_selectors_exact `{ext : Externals} (css_file : string) :
  match parseFile css_file with
  | Ok cssRules =>
      ∃ selectors,
        extract_css_selectors css_file = Ok selectors
        ∧ ∀ s, s ∈ selectors
               ↔ ∃ selectorList, CSSStyleRule selectorList ∈ cssRules ∧ s ∈ selectorList
  | Raise e => extract_css_selectors css_file = Raise e
  end.
Proof.
  unfold extract_css_selectors. destruct (parseFile css_file) as [rules|e]; simpl; [|done].
  eexists. split; [reflexivity|]. intros s.
  rewrite elem_of_css_fold, elem_of_empty. tauto.
Qed.

(** ** [get_occuring_words] and the regular expressions *)

(** X6. For words that are non-empty runs of letters and digits (the
    words whose interpolated pattern is the literal word),
    [get_occuring_words] returns a subset of the given words; a word is in
    it exactly when it is one of the given words and occurs in the content
    as a whole word; and in an empty content no word occurs. *)
Theorem get_occuring_words_exact (words : gset string) (content : string) :
  (∀ w, w ∈ words → w ≠ "" ∧ all_alnum w = true) →
  get_occuring_words words content ⊆ words
  ∧ (∀ w, w ∈ get_occuring_words words content ↔ w ∈ words ∧ whole_word_in w content)
  ∧ (content = "" → get_occuring_words words content = ∅).
Proof.
  intros Hwords. rewrite !get_occuring_words_filter. split_and!.
  - intros w [_ Hw]%elem_of_filter. exact Hw.
  - intros w. rewrite elem_of_filter. split.
    + intros [Hs Hw]. destruct (Hwords w Hw) as [Hne Hal].
      split; [exact Hw|]. by apply re_search_word_spec.
    + intros [Hw Hs]. destruct (Hwords w Hw) as [Hne Hal].
      split; [|exact Hw]. by apply re_search_word_spec.
  - intros ->. apply set_eq; intros w. rewrite elem_of_filter, elem_of_empty.
    split; [|done]. intros [Hs Hw]. destruct (Hwords w Hw) as [Hne _].
    unfold re_search_word in Hs. by destruct w.
Qed.

Lemma get_occuring_words_exact_witness :
  "nav" ∈ get_occuring_words {["nav"; "item"]} "<ul id='nav'>"
  ↔ "nav" ∈ ({["nav"; "item"]} : gset string) ∧ whole_word_in "nav" "<ul id='nav'>".
Proof.
  apply (proj1 (proj2 (get_occuring_words_exact {["nav"; "item"]} "<ul id='nav'>"
                         ltac:(intros w Hw; apply elem_of_union in Hw as [Hw|Hw];
                               apply elem_of_singleton in Hw as ->;
                               (split; [discriminate|reflexivity]))))).
Defined.

Lemma alnum_prefix_app_stop s c t :
  is_alnum c = false → alnum_prefix (s +:+ String c t) = alnum_prefix s.
Proof.
  intros Hc. induction s as [|a s IH]; simpl.
  - by rewrite Hc.
  - destruct (is_alnum a); [by rewrite IH|done].
Qed.

(** X7. The tokens of a text that is cut before a character that is no
    letter or digit (a blank, a combinator, a bracket) are the tokens of the
    first part followed by the tokens of the rest: no token reaches across
    such a character. *)
Theorem findall_app (p : ascii) (s1 : string) (c : ascii) (s2 : string) :
  is_alnum c = false →
  findall p (s1 +:+ String c s2) = findall p s1 ++ findall p (String c s2).
Proof.
  intros Hc. revert c s2 Hc.
  apply (findall_elim (λ p s r, ∀ c s2, is_alnum c = false →
           findall p (s +:+ String c s2) = r ++ findall p (String c s2))).
  - done.
  - clear p s1. intros p a s' IHdrop IHnext c s2 Hc. simpl.
    rewrite findall_equation_2, alnum_prefix_app_stop, alnum_drop_app by done.
    destruct (Ascii.eqb a p && negb (String.eqb (alnum_prefix s') ""))%bool.
    + simpl. f_equal. by apply IHdrop.
    + by apply IHnext.
Qed.

Lemma findall_app_witness :
  findall "." ("ul.nav" +:+ String " " "li.item") = findall "." "ul.nav" ++ findall "." " li.item".
Proof. apply (findall_app "." "ul.nav" " " "li.item"). reflexivity. Defined.

(** ** The diagnostics of the grep stage *)

Lemma occurs_in_false contents x :
  x ≠ "" → all_alnum x = true →
  occurs_in contents x = false
  ↔ ∀ content, content ∈ contents → ¬ whole_word_in x content.
Proof.
  intros Hne Hal. unfold occurs_in.
  rewrite <- not_true_iff_false, existsb_exists. split.
  - intros Hn content Hc Hw. apply Hn. exists content.
    split; [by apply list_elem_of_In|by apply re_search_word_spec].
  - intros Hall (content & Hc & Hs). apply (Hall content).
    + by apply list_elem_of_In.
    + by apply re_search_word_spec in Hs.
Qed.

(** X8. The diagnostics of the grep stage: [ids] and [classes] are the
    identifiers extracted from the candidates, and [unfindable_ids]
    (resp. [unfindable_classes]) are those of them that occur as a whole
    word in none of the texts, however the scan skipped words already
    found. *)
Theorem grep_stage_diagnostics `{ext : Externals}
    (selectors : gset string) (src_files contents : list string)
    (remaining : gset string) (data : idclass_results) :
  mapM file_get_contents src_files = Ok contents →
  _eliminate_selectors_from_idclass_grepping selectors src_files = Ok (remaining, data) →
  (∀ x, x ∈ ic_ids data ↔ ∃ s, s ∈ selectors ∧ x ∈ REGEX_ID_findall s)
  ∧ (∀ x, x ∈ ic_classes data ↔ ∃ s, s ∈ selectors ∧ x ∈ REGEX_CLASS_findall s)
  ∧ (∀ x, x ∈ ic_unfindable_ids data
          ↔ x ∈ ic_ids data ∧ ∀ content, content ∈ contents → ¬ whole_word_in x content)
  ∧ (∀ x, x ∈ ic_unfindable_classes data
          ↔ x ∈ ic_classes data
            ∧ ∀ content, content ∈ contents → ¬ whole_word_in x content).
Proof.
  intros Hread. rewrite grep_stage_eq, Hread. simpl. intros [= _ <-]. simpl.
  split_and!.
  - apply extract_ids.
  - apply extract_classes.
  - intros x. rewrite elem_of_filter. split.
    + intros [Ho Hx]. split; [done|].
      pose proof Hx as (s & _ & [? ?]%findall_token)%extract_ids.
      by apply occurs_in_false.
    + intros [Hx Hall]. split; [|done].
      pose proof Hx as (s & _ & [? ?]%findall_token)%extract_ids.
      by apply occurs_in_false.
  - intros x. rewrite elem_of_filter. split.
    + intros [Ho Hx]. split; [done|].
      pose proof Hx as (s & _ & [? ?]%findall_token)%extract_classes.
      by apply occurs_in_false.
    + intros [Hx Hall]. split; [|done].
      pose proof Hx as (s & _ & [? ?]%findall_token)%extract_classes.
      by apply occurs_in_false.
Qed.

Lemma grep_stage_diagnostics_witness :
  "nav" ∈ ({["a"]} : gset string)
  ↔ "nav" ∈ ({["a"; "nav"]} : gset string)
    ∧ ∀ content, content ∈ ["var b = nav;"] → ¬ whole_word_in "nav" content.
Proof.
  refine (proj1 (proj2 (proj2
    (@grep_stage_diagnostics Demo.site Demo.site_selectors ["app.js"]
       ["var b = nav;"] {["#a"; ":has(>x)"; "div"]}
       {| ic_ids := {["a"; "nav"]}; ic_classes := {["b"; "item"]};
          ic_unfindable_ids := {["a"]}; ic_unfindable_classes := {["item"]};
          ic_unused_selectors := ["#a"; ":has(>x)"; "div"] |} _ _))) "nav").
  - reflexivity.
  - vm_compute. reflexivity.
Defined.

(** X9. The origin map has an entry, with a non-empty list, for every id and
    every class extracted, and no entry with an empty list; so when the
    grep stage reads [origins['#' + id]] or [origins['.' + class]] for a
    found identifier the key is there and the default of the dictionary is
    not used. *)
Theorem origins_lookup_present (selectors : gset string) :
  let '(ids, classes, origins) := extract_ids_and_classes_from_selectors selectors in
  (∀ x, x ∈ ids → ∃ l, origins !! String "#" x = Some l ∧ l ≠ [])
  ∧ (∀ x, x ∈ classes → ∃ l, origins !! String "." x = Some l ∧ l ≠ [])
  ∧ (∀ k l, origins !! k = Some l → l ≠ []).
Proof.
  pose proof (extract_ids selectors) as Hids.
  pose proof (extract_classes selectors) as Hclasses.
  pose proof (extract_origins selectors) as Horigins.
  pose proof (extract_dom selectors) as Hdom.
  destruct (extract_ids_and_classes_from_selectors selectors) as [[ids classes] origins].
  simpl in *.
  assert (Hne : ∀ k l, origins !! k = Some l → l ≠ []).
  { intros k l Hk ->.
    assert (k ∈ dom origins) as (s & Hs & Hkey)%Hdom by (apply elem_of_dom; eauto).
    assert (s ∈ origins_get origins k) as Hin by (apply Horigins; eauto).
    unfold origins_get in Hin. rewrite Hk in Hin. by apply elem_of_nil in Hin. }
  assert (Hkey : ∀ s k, s ∈ selectors → key_of s k →
            ∃ l, origins !! k = Some l ∧ l ≠ []).
  { intros s k Hs Hk.
    assert (k ∈ dom origins) as [l Hl]%elem_of_dom by (apply Hdom; eauto).
    exists l. split; [done|]. by apply (Hne k). }
  split_and!.
  - intros x (s & Hs & Hx)%Hids. apply (Hkey s); [done|]. by apply key_of_id.
  - intros x (s & Hs & Hx)%Hclasses. apply (Hkey s); [done|]. by apply key_of_class.
  - exact Hne.
Qed.

(** ** Errors of the stages *)

Lemma mapM_Raise_first {A B} (f : A → result B) (pre : list A) x rest e :
  (∀ y, y ∈ pre → ∃ b, f y = Ok b) → f x = Raise e →
  mapM f (pre ++ x :: rest) = Raise e.
Proof.
  intros Hpre Hx. induction pre as [|a pre IH]; simpl.
  - by rewrite Hx.
  - destruct (Hpre a) as [b ->]; [apply list_elem_of_here|]. simpl.
    rewrite IH; [done|]. intros y Hy. by apply Hpre, list_elem_of_further.
Qed.

Lemma mapM_Raise_inv {A B} (f : A → result B) (l : list A) e :
  mapM f l = Raise e →
  ∃ pre x rest, l = pre ++ x :: rest
    ∧ (∀ y, y ∈ pre → ∃ b, f y = Ok b) ∧ f x = Raise e.
Proof.
  induction l as [|a l IH]; simpl; [done|].
  destruct (f a) as [b|e'] eqn:Ha; simpl.
  - destruct (mapM f l) as [bs|e'']; simpl; [done|]. intros [= ->].
    destruct (IH eq_refl) as (pre & x & rest & -> & Hpre & Hx).
    exists (a :: pre), x, rest. split; [done|]. split; [|done].
    intros y [-> | Hy]%elem_of_cons; eauto.
  - intros [= ->]. exists [], a, l. split; [done|]. split; [|done].
    intros y Hy. by apply elem_of_nil in Hy.
Qed.

Lemma mapM_Raise_iff {A B} (f : A → result B) (l : list A) e :
  mapM f l = Raise e
  ↔ ∃ pre x rest, l = pre ++ x :: rest
      ∧ (∀ y, y ∈ pre → ∃ b, f y = Ok b) ∧ f x = Raise e.
Proof.
  split; [apply mapM_Raise_inv|].
  intros (pre & x & rest & -> & Hpre & Hx). by apply mapM_Raise_first.
Qed.

(** X10. The DOM stage raises exactly when one of the documents cannot be
    opened, whatever the candidates are (even without any candidate), and
    what it raises is the exception of the first such document; an error of
    the selector evaluator never makes it raise. *)
Theorem dom_stage_raises `{ext : Externals}
    (selectors : gset string) (html_files : list string) (e : exn) :
  _eliminate_selectors_from_dom_matching selectors html_files = Raise e
  ↔ ∃ opened html_file rest,
      html_files = opened ++ html_file :: rest
      ∧ (∀ f, f ∈ opened → ∃ soup, open_BeautifulSoup f = Ok soup)
      ∧ open_BeautifulSoup html_file = Raise e.
Proof.
  rewrite dom_stage_eq, <- mapM_Raise_iff.
  destruct (mapM open_BeautifulSoup html_files); simpl;
    split; intros Hr; try discriminate Hr; by injection Hr as ->.
Qed.

Lemma dom_stage_raises_witness :
  @_eliminate_selectors_from_dom_matching Demo.site ∅ ["index.html"; "gone.html"; "x.html"]
  = Raise (IOError "gone.html").
Proof.
  apply (@dom_stage_raises Demo.site ∅).
  exists ["index.html"], "gone.html", ["x.html"]. split; [reflexivity|].
  split; [|reflexivity].
  intros f ->%list_elem_of_singleton. by exists 0.
Defined.

(** X11. The grep stage raises exactly when one of the source files cannot
    be read, whatever the candidates are, and what it raises is the
    exception of the first such file. *)
Theorem grep_stage_raises `{ext : Externals}
    (selectors : gset string) (src_files : list string) (e : exn) :
  _eliminate_selectors_from_idclass_grepping selectors src_files = Raise e
  ↔ ∃ read src_file rest,
      src_files = read ++ src_file :: rest
      ∧ (∀ f, f ∈ read → ∃ content, file_get_contents f = Ok content)
      ∧ file_get_contents src_file = Raise e.
Proof.
  rewrite grep_stage_eq, <- mapM_Raise_iff.
  destruct (mapM file_get_contents src_files); simpl;
    split; intros Hr; try discriminate Hr; by injection Hr as ->.
Qed.

Lemma grep_stage_raises_witness :
  @_eliminate_selectors_from_idclass_grepping Demo.site ∅ ["app.js"; "gone.js"]
  = Raise (IOError "gone.js").
Proof.
  apply (@grep_stage_raises Demo.site ∅).
  exists ["app.js"], "gone.js", []. split; [reflexivity|].
  split; [|reflexivity].
  intros f ->%list_elem_of_singleton. by eexists.
Defined.

(** ** How the stages compose *)

Lemma mapM_result_app {A B} (f : A → result B) (l1 l2 : list A) :
  mapM f (l1 ++ l2)
  = ys1 ← mapM f l1; ys2 ← mapM f l2; mret (ys1 ++ ys2).
Proof.
  induction l1 as [|a l1 IH]; simpl.
  - by destruct (mapM f l2).
  - destruct (f a) as [b|e]; simpl; [|done]. rewrite IH.
    destruct (mapM f l1) as [bs1|e]; simpl; [|done].
    by destruct (mapM f l2).
Qed.

Lemma mapM_Ok_all {A B} (f : A → result B) (l : list A) ys x :
  mapM f l = Ok ys → x ∈ l → ∃ y, f x = Ok y.
Proof.
  revert ys. induction l as [|a l IH]; intros ys Hm Hx; [by apply elem_of_nil in Hx|].
  simpl in Hm. destruct (f a) as [b|e] eqn:Ha; simpl in Hm; [|done].
  destruct (mapM f l) as [bs|e]; simpl in Hm; [|done].
  apply elem_of_cons in Hx as [-> | Hx]; eauto.
Qed.

(** Reading the same files in another order gives the same values. *)
Lemma mapM_same_members {A B} (f : A → result B) (l l' : list A) ys :
  (∀ x, x ∈ l ↔ x ∈ l') → mapM f l = Ok ys →
  ∃ ys', mapM f l' = Ok ys' ∧ ∀ y, y ∈ ys ↔ y ∈ ys'.
Proof.
  intros Hsame Hm.
  destruct (mapM_Ok_total f l') as [ys' Hm'].
  { intros x Hx. apply (mapM_Ok_all f l ys); [done|]. by apply Hsame. }
  exists ys'. split; [done|]. intros y. split.
  - intros (x & Hx & Hfx)%(mapM_Ok_inv f l ys); [|done].
    apply (mapM_Ok_elem_of f l' ys' x); [done| |done]. by apply Hsame.
  - intros (x & Hx & Hfx)%(mapM_Ok_inv f l' ys'); [|done].
    apply (mapM_Ok_elem_of f l ys x); [done| |done]. by apply Hsame.
Qed.

Lemma occurs_in_true contents x :
  occurs_in contents x = true
  ↔ ∃ content, content ∈ contents ∧ re_search_word x content = true.
Proof.
  unfold occurs_in. rewrite existsb_exists. by setoid_rewrite list_elem_of_In.
Qed.

Lemma occurs_in_same_members contents contents' x :
  (∀ c, c ∈ contents ↔ c ∈ contents') → occurs_in contents x = occurs_in contents' x.
Proof.
  intros Hsame. apply eq_true_iff_eq. rewrite !occurs_in_true. by setoid_rewrite Hsame.
Qed.

Lemma grep_kept_same_members contents contents' s :
  (∀ c, c ∈ contents ↔ c ∈ contents') → grep_kept contents s = grep_kept contents' s.
Proof.
  intros Hsame. apply eq_true_iff_eq. rewrite !grep_kept_true.
  split; intros Hall x Hx.
  - rewrite <- (occurs_in_same_members contents contents') by done. auto.
  - rewrite (occurs_in_same_members contents contents') by done. auto.
Qed.

Lemma grep_kept_app contents1 contents2 s :
  grep_kept (contents1 ++ contents2) s
  = (grep_kept contents1 s && grep_kept contents2 s)%bool.
Proof.
  unfold grep_kept. rewrite <- negb_orb. f_equal.
  induction (identifiers s) as [|x l IH]; simpl; [done|].
  rewrite IH. unfold occurs_in. rewrite existsb_app.
  destruct (existsb (re_search_word x) contents1), (existsb (re_search_word x) contents2),
    (existsb _ l); simpl; try done.
  all: by rewrite ?orb_true_r.
Qed.

Lemma dom_kept_app `{ext : Externals} soups1 soups2 s :
  dom_kept (soups1 ++ soups2) s = (dom_kept soups1 s && dom_kept soups2 s)%bool.
Proof. unfold dom_kept. apply forallb_app. Qed.

Lemma dom_kept_same_members `{ext : Externals} soups soups' s :
  (∀ soup, soup ∈ soups ↔ soup ∈ soups') → dom_kept soups s = dom_kept soups' s.
Proof.
  intros Hsame. apply eq_true_iff_eq. rewrite !dom_kept_true. by setoid_rewrite Hsame.
Qed.

(** X12. Running the DOM stage on a list of documents and then on a second
    list, from the set the first run returned, is the same as running it
    once on both lists; and the stage returns the same for two lists of the
    same documents, in whatever order (the order in which the set of HTML
    files is gone through does not matter). *)
Theorem dom_stage_compose `{ext : Externals} (selectors : gset string) (files1 files2 : list string) :
  ('(unused, _) ← _eliminate_selectors_from_dom_matching selectors files1;
   _eliminate_selectors_from_dom_matching unused files2)
  = _eliminate_selectors_from_dom_matching selectors (files1 ++ files2)
  ∧ ∀ files' unused data,
      (∀ f, f ∈ files1 ↔ f ∈ files') →
      _eliminate_selectors_from_dom_matching selectors files1 = Ok (unused, data) →
      _eliminate_selectors_from_dom_matching selectors files' = Ok (unused, data).
Proof.
  split.
  - rewrite (dom_stage_eq selectors files1), (dom_stage_eq selectors (files1 ++ files2)).
    rewrite mapM_result_app.
    destruct (mapM open_BeautifulSoup files1) as [soups1|e]; simpl; [|done].
    rewrite dom_stage_eq.
    destruct (mapM open_BeautifulSoup files2) as [soups2|e]; simpl; [|done].
    assert (filter (λ x, dom_kept soups2 x = true)
              (filter (λ x, dom_kept soups1 x = true) selectors)
            = filter (λ x, dom_kept (soups1 ++ soups2) x = true) selectors) as ->; [|done].
    apply set_eq; intros s. rewrite !elem_of_filter, dom_kept_app, andb_true_iff. tauto.
  - intros files' unused data Hsame. rewrite !dom_stage_eq.
    destruct (mapM open_BeautifulSoup files1) as [soups|e] eqn:Hm; simpl; [|done].
    destruct (mapM_same_members _ _ _ _ Hsame Hm) as (soups' & -> & Hsoups). simpl.
    assert (filter (λ x, dom_kept soups' x = true) selectors
            = filter (λ x, dom_kept soups x = true) selectors) as ->; [|done].
    apply set_eq; intros s. rewrite !elem_of_filter.
    by rewrite (dom_kept_same_members soups soups').
Qed.

Lemma dom_stage_compose_witness :
  @_eliminate_selectors_from_dom_matching Demo.site Demo.site_selectors
    ["index.html"; "index.html"]
  = Ok ({["#nav .item"; ".b"; ":has(>x)"; "div"]},
        {| dm_unused_selectors := ["#nav .item"; ".b"; ":has(>x)"; "div"] |}).
Proof.
  apply (proj2 (@dom_stage_compose Demo.site Demo.site_selectors ["index.html"] [])).
  - intros f. rewrite !elem_of_cons. tauto.
  - vm_compute. reflexivity.
Defined.

(** X13. The same for the grep stage: two runs one after the other leave the
    set that one run on both lists of source files leaves, and the stage
    returns the same for two lists of the same source files in whatever
    order. *)
Theorem grep_stage_compose `{ext : Externals} (selectors : gset string) (files1 files2 : list string) :
  ('(unused, _) ← _eliminate_selectors_from_idclass_grepping selectors files1;
   '(unused, _) ← _eliminate_selectors_from_idclass_grepping unused files2;
   mret unused)
  = ('(unused, _) ← _eliminate_selectors_from_idclass_grepping selectors (files1 ++ files2);
     mret unused)
  ∧ ∀ files' unused data,
      (∀ f, f ∈ files1 ↔ f ∈ files') →
      _eliminate_selectors_from_idclass_grepping selectors files1 = Ok (unused, data) →
      _eliminate_selectors_from_idclass_grepping selectors files' = Ok (unused, data).
Proof.
  split.
  - rewrite (grep_stage_eq selectors files1), (grep_stage_eq selectors (files1 ++ files2)).
    rewrite mapM_result_app.
    destruct (mapM file_get_contents files1) as [contents1|e]; simpl; [|done].
    rewrite grep_stage_eq.
    destruct (mapM file_get_contents files2) as [contents2|e]; simpl; [|done].
    f_equal. apply set_eq; intros s.
    rewrite !elem_of_filter, grep_kept_app, andb_true_iff. tauto.
  - intros files' unused data Hsame. rewrite !grep_stage_eq.
    destruct (mapM file_get_contents files1) as [contents|e] eqn:Hm; simpl; [|done].
    destruct (mapM_same_members _ _ _ _ Hsame Hm) as (contents' & -> & Hc). simpl.
    assert (Hfilter : ∀ X : gset string,
              filter (λ x, occurs_in contents' x = false) X
              = filter (λ x, occurs_in contents x = false) X).
    { intros X. apply set_eq; intros x. rewrite !elem_of_filter.
      by rewrite (occurs_in_same_members contents contents'). }
    assert (filter (λ s, grep_kept contents' s = true) selectors
            = filter (λ s, grep_kept contents s = true) selectors) as ->.
    { apply set_eq; intros s. rewrite !elem_of_filter.
      by rewrite (grep_kept_same_members contents contents'). }
    by rewrite !Hfilter.
Qed.

Lemma grep_stage_compose_witness :
  @_eliminate_selectors_from_idclass_grepping Demo.site Demo.site_selectors
    ["app.js"; "app.js"]
  = Ok ({["#a"; ":has(>x)"; "div"]},
        {| ic_ids := {["a"; "nav"]}; ic_classes := {["b"; "item"]};
           ic_unfindable_ids := {["a"]}; ic_unfindable_classes := {["item"]};
           ic_unused_selectors := ["#a"; ":has(>x)"; "div"] |}).
Proof.
  apply (proj2 (@grep_stage_compose Demo.site Demo.site_selectors ["app.js"] [])).
  - intros f. rewrite !elem_of_cons. tauto.
  - vm_compute. reflexivity.
Defined.

Lemma filter_idem (P : string → Prop) `{∀ x, Decision (P x)} (X : gset string) :
  filter P (filter P X) = filter P X.
Proof. apply set_eq; intros x. rewrite !elem_of_filter. tauto. Qed.

(** X14. Running a stage again, with the same files, on the set it returned
    removes nothing more. *)
Theorem stages_idempotent `{ext : Externals} (selectors : gset string) (files : list string)
    (unused : gset string) :
  (∀ data,
     _eliminate_selectors_from_dom_matching selectors files = Ok (unused, data) →
     _eliminate_selectors_from_dom_matching unused files = Ok (unused, data))
  ∧ (∀ data,
       _eliminate_selectors_from_idclass_grepping selectors files = Ok (unused, data) →
       ∃ data',
         _eliminate_selectors_from_idclass_grepping unused files = Ok (unused, data')
         ∧ ic_unused_selectors data' = ic_unused_selectors data).
Proof.
  split; intros data.
  - rewrite !dom_stage_eq.
    destruct (mapM open_BeautifulSoup files) as [soups|e]; simpl; [|done].
    intros [= <- <-]. by rewrite filter_idem.
  - rewrite !grep_stage_eq.
    destruct (mapM file_get_contents files) as [contents|e]; simpl; [|done].
    intros [= <- <-]. rewrite filter_idem. eexists. split; [reflexivity|done].
Qed.

Lemma stages_idempotent_witness :
  @_eliminate_selectors_from_dom_matching Demo.site
    {["#nav .item"; ".b"; ":has(>x)"; "div"]} ["index.html"]
  = Ok ({["#nav .item"; ".b"; ":has(>x)"; "div"]},
        {| dm_unused_selectors := ["#nav .item"; ".b"; ":has(>x)"; "div"] |}).
Proof.
  apply (proj1 (@stages_idempotent Demo.site Demo.site_selectors ["index.html"] _)).
  vm_compute. reflexivity.
Defined.

(** X15. Without any file a stage returns its candidates unchanged: the DOM
    stage clears nothing, and the grep stage finds no identifier, so that
    every id and class is unfindable. *)
Theorem stages_without_files `{ext : Externals} (selectors : gset string) :
  _eliminate_selectors_from_dom_matching selectors []
  = Ok (selectors, {| dm_unused_selectors := sorted selectors |})
  ∧ ∃ data,
      _eliminate_selectors_from_idclass_grepping selectors [] = Ok (selectors, data)
      ∧ ic_unfindable_ids data = ic_ids data
      ∧ ic_unfindable_classes data = ic_classes data
      ∧ ic_unused_selectors data = sorted selectors.
Proof.
  split; [done|]. rewrite grep_stage_eq. simpl.
  assert (Hall : ∀ X : gset string, filter (λ x, occurs_in [] x = false) X = X).
  { intros X. apply set_eq; intros x. rewrite elem_of_filter. simpl. tauto. }
  assert (filter (λ s, grep_kept [] s = true) selectors = selectors) as ->.
  { apply set_eq; intros s. rewrite elem_of_filter, grep_kept_true. simpl. tauto. }
  rewrite !Hall. eexists. split; [reflexivity|done].
Qed.


(** ** The analysis of a CSS file, end to end *)

Lemma selector_matches_false `{ext : Externals} soup selector :
  selector_matches soup selector = false
  ↔ ∀ nodes, soup_select soup selector = Ok nodes → nodes = [].
Proof.
  rewrite <- not_true_iff_false, selector_matches_true. split.
  - intros Hn nodes Hs. destruct nodes as [|n nodes]; [done|].
    destruct Hn. by exists (n :: nodes).
  - intros Hall (nodes & Hs & Hne). by apply Hne, Hall.
Qed.

Lemma mapM_elements_empty {A B} `{Countable A} (f : A → result B) :
  mapM f (elements (∅ : gset A)) = Ok [].
Proof. by rewrite elements_empty. Qed.

Lemma filter_grep_kept_nil (X : gset string) :
  filter (λ s, grep_kept [] s = true) X = X.
Proof.
  apply set_eq; intros s. rewrite elem_of_filter, grep_kept_true. simpl. tauto.
Qed.

(** The set a guarded stage of [main] leaves, in closed form. *)
Lemma analyse_css_file_closed `{ext : Externals} css_file html_files src_files data :
  analyse_css_file css_file html_files src_files = Ok data →
  ∃ soups contents,
    mapM open_BeautifulSoup (elements html_files) = Ok soups
    ∧ mapM file_get_contents (elements src_files) = Ok contents
    ∧ r_unused_selectors data
      = sorted (filter (λ s, grep_kept contents s = true)
                  (filter (λ s, dom_kept soups s = true) (r_selectors data))).
Proof.
  intros (u1 & u2 & _ & Hd & Hg & ->)%analyse_css_file_inv.
  assert (∃ soups, mapM open_BeautifulSoup (elements html_files) = Ok soups
            ∧ u1 = filter (λ s, dom_kept soups s = true) (r_selectors data))
    as (soups & Hsoups & ->).
  { destruct (bool_decide (html_files ≠ ∅)) eqn:Hb.
    - destruct Hd as (dom & Hd & _). rewrite dom_stage_eq in Hd.
      destruct (mapM open_BeautifulSoup (elements html_files)) as [soups|e];
        simpl in Hd; [|done].
      injection Hd as <- _. eauto.
    - apply bool_decide_eq_false in Hb. destruct Hd as [-> _].
      assert (html_files = ∅) as -> by (destruct (decide (html_files = ∅)); done).
      exists []. split; [apply mapM_elements_empty|].
      apply set_eq; intros s. rewrite elem_of_filter. simpl. tauto. }
  assert (∃ contents, mapM file_get_contents (elements src_files) = Ok contents
            ∧ u2 = filter (λ s, grep_kept contents s = true)
                     (filter (λ s, dom_kept soups s = true) (r_selectors data)))
    as (contents & Hcontents & ->).
  { destruct (bool_decide (src_files ≠ ∅)) eqn:Hb.
    - destruct Hg as (idc & Hg & _). rewrite grep_stage_eq in Hg.
      destruct (mapM file_get_contents (elements src_files)) as [contents|e];
        simpl in Hg; [|done].
      injection Hg as <- _. eauto.
    - apply bool_decide_eq_false in Hb. destruct Hg as [-> _].
      assert (src_files = ∅) as -> by (destruct (decide (src_files = ∅)); done).
      exists []. split; [apply mapM_elements_empty|].
      by rewrite filter_grep_kept_nil. }
  eauto.
Qed.

Lemma identifiers_token s x : x ∈ identifiers s → x ≠ "" ∧ all_alnum x = true.
Proof.
  unfold identifiers. intros [Hx|Hx]%elem_of_app; by apply findall_token in Hx.
Qed.

(** X16. What [main] reports for a CSS file: when the analysis of the file
    returns, all HTML files were opened and all source files read, and a
    selector is reported as unused exactly when it was extracted from the
    CSS file, no document has a node for it, and none of its ids and
    classes occurs as a whole word in a source text; this holds as well
    when a stage was skipped because its set of files is empty. *)
Theorem analyse_css_file_report `{ext : Externals}
    (css_file : string) (html_files src_files : gset string) (data : css_file_results) :
  analyse_css_file css_file html_files src_files = Ok data →
  ∃ soups contents,
    mapM open_BeautifulSoup (elements html_files) = Ok soups
    ∧ mapM file_get_contents (elements src_files) = Ok contents
    ∧ extract_css_selectors css_file = Ok (r_selectors data)
    ∧ ∀ s, s ∈ r_unused_selectors data
           ↔ s ∈ r_selectors data
             ∧ (∀ soup nodes, soup ∈ soups → soup_select soup s = Ok nodes → nodes = [])
             ∧ (∀ x content, x ∈ identifiers s → content ∈ contents →
                  ¬ whole_word_in x content).
Proof.
  intros Hdata.
  destruct (analyse_css_file_closed _ _ _ _ Hdata) as (soups & contents & Hs & Hc & Hu).
  destruct (analyse_css_file_inv _ _ _ _ Hdata) as (_ & _ & Hx & _).
  exists soups, contents. split_and!; [done..|]. intros s.
  rewrite Hu, elem_of_sorted, !elem_of_filter, dom_kept_true, grep_kept_true.
  setoid_rewrite selector_matches_false.
  assert (Hid : ∀ x, x ∈ identifiers s →
            occurs_in contents x = false
            ↔ ∀ content, content ∈ contents → ¬ whole_word_in x content).
  { intros x [? ?]%identifiers_token. by apply occurs_in_false. }
  split.
  - intros (Hg & Hd & Hin). split_and!; [done| |].
    + intros soup nodes Hsoup. by apply Hd.
    + intros x content Hx' Hc'. exact (proj1 (Hid x Hx') (Hg x Hx') content Hc').
  - intros (Hin & Hd & Hg). split_and!; [| |done].
    + intros x Hx'. apply (Hid x Hx'). intros content. by apply Hg.
    + intros soup Hsoup nodes. by apply Hd.
Qed.

Lemma analyse_css_file_report_witness :
  ∃ soups contents,
    mapM (@open_BeautifulSoup Demo.site) (elements ({["index.html"]} : gset string))
    = Ok soups
    ∧ mapM (@file_get_contents Demo.site) (elements ({["app.js"]} : gset string))
      = Ok contents
    ∧ @extract_css_selectors Demo.site "site.css" = Ok Demo.site_selectors
    ∧ ∀ s, s ∈ [":has(>x)"; "div"]
           ↔ s ∈ Demo.site_selectors
             ∧ (∀ soup nodes, soup ∈ soups → @soup_select Demo.site soup s = Ok nodes →
                  nodes = [])
             ∧ (∀ x content, x ∈ identifiers s → content ∈ contents →
                  ¬ whole_word_in x content).
Proof.
  apply (@analyse_css_file_report Demo.site "site.css" {["index.html"]} {["app.js"]}
           {| r_selectors := Demo.site_selectors;
              r_dom_matching :=
                Some {| dm_unused_selectors := ["#nav .item"; ".b"; ":has(>x)"; "div"] |};
              r_idclass_elimination :=
                Some {| ic_ids := {["nav"]}; ic_classes := {["b"; "item"]};
                        ic_unfindable_ids := ∅; ic_unfindable_classes := {["item"]};
                        ic_unused_selectors := [":has(>x)"; "div"] |};
              r_unused_selectors := [":has(>x)"; "div"] |}).
  vm_compute. reflexivity.
Defined.

(** ** When [main] raises *)

Lemma mapM_value_None {A B} (f : A → result B) (l : list A) :
  value (mapM f l) = None ↔ ∃ x, x ∈ l ∧ value (f x) = None.
Proof.
  induction l as [|a l IH]; simpl.
  - split; [done|]. intros (x & Hx & _). by apply elem_of_nil in Hx.
  - destruct (f a) as [b|e] eqn:Ha; simpl.
    + destruct (mapM f l) as [bs|e]; simpl in *.
      * split; [done|]. intros (x & [-> | Hx]%elem_of_cons & Hv).
        -- by rewrite Ha in Hv.
        -- assert (Some bs = None :> option (list B)); [|done]. apply IH. eauto.
      * split; [|done]. intros _. destruct (proj1 IH eq_refl) as (x & Hx & Hv).
        exists x. split; [by apply list_elem_of_further|done].
    + split; [|done]. intros _. exists a. split; [apply list_elem_of_here|].
      by rewrite Ha.
Qed.

Lemma analyse_css_file_None `{ext : Externals} css_file (html_files src_files : gset string) :
  value (analyse_css_file css_file html_files src_files) = None
  ↔ value (extract_css_selectors css_file) = None
    ∨ (∃ f, f ∈ html_files ∧ value (open_BeautifulSoup f) = None)
    ∨ (∃ f, f ∈ src_files ∧ value (file_get_contents f) = None).
Proof.
  assert (Hdom : ∀ S, value (_eliminate_selectors_from_dom_matching S (elements html_files))
                      = None
                      ↔ ∃ f, f ∈ html_files ∧ value (open_BeautifulSoup f) = None).
  { intros S. rewrite dom_stage_eq. setoid_rewrite <- elem_of_elements.
    rewrite <- mapM_value_None.
    by destruct (mapM open_BeautifulSoup (elements html_files)). }
  assert (Hgrep : ∀ S, value (_eliminate_selectors_from_idclass_grepping S
                                (elements src_files)) = None
                       ↔ ∃ f, f ∈ src_files ∧ value (file_get_contents f) = None).
  { intros S. rewrite grep_stage_eq. setoid_rewrite <- elem_of_elements.
    rewrite <- mapM_value_None.
    by destruct (mapM file_get_contents (elements src_files)). }
  assert (Hempty : ∀ (X : gset string) (P : string → Prop),
            bool_decide (X ≠ ∅) = false → ¬ ∃ f, f ∈ X ∧ P f).
  { intros X P Hb%bool_decide_eq_false (f & Hf & _). apply Hb. intros ->.
    by apply elem_of_empty in Hf. }
  unfold analyse_css_file.
  destruct (extract_css_selectors css_file) as [selectors|e]; simpl; [|tauto].
  destruct (bool_decide (html_files ≠ ∅)) eqn:Hh.
  - specialize (Hdom selectors).
    destruct (_eliminate_selectors_from_dom_matching selectors (elements html_files))
      as [[u1 d]|e]; simpl in *; [|tauto].
    destruct (bool_decide (src_files ≠ ∅)) eqn:Hs.
    + specialize (Hgrep u1).
      destruct (_eliminate_selectors_from_idclass_grepping u1 (elements src_files))
        as [[u2 d2]|e]; simpl in *; [|tauto].
      split; [done|]. intros [?|[Hf|Hf]]; [done| |].
      * by apply Hdom in Hf.
      * by apply Hgrep in Hf.
    + simpl. split; [done|]. intros [?|[Hf|Hf]]; [done| |].
      * by apply Hdom in Hf.
      * by destruct (Hempty src_files (λ f, value (file_get_contents f) = None) Hs).
  - simpl. pose proof (Hempty html_files (λ f, value (open_BeautifulSoup f) = None) Hh).
    destruct (bool_decide (src_files ≠ ∅)) eqn:Hs.
    + specialize (Hgrep selectors).
      destruct (_eliminate_selectors_from_idclass_grepping selectors (elements src_files))
        as [[u2 d2]|e]; simpl in *; [|tauto].
      split; [done|]. intros [?|[Hf|Hf]]; [done|done|]. by apply Hgrep in Hf.
    + simpl. split; [done|]. intros [?|[Hf|Hf]]; [done|done|].
      by destruct (Hempty src_files (λ f, value (file_get_contents f) = None) Hs).
Qed.

Lemma main_loop_None `{ext : Externals} css_files html_files src_files : ∀ acc,
  value (main_loop css_files html_files src_files acc) = None
  ↔ ∃ css_file, css_file ∈ css_files
      ∧ value (analyse_css_file css_file html_files src_files) = None.
Proof.
  intros acc. split.
  - revert acc. induction css_files as [|f files IH]; intros acc; simpl; [done|].
    destruct (analyse_css_file f html_files src_files) as [data|e] eqn:Hf; simpl.
    + intros (css & Hcss & Hv)%IH. exists css.
      split; [by apply list_elem_of_further|done].
    + intros _. exists f. split; [apply list_elem_of_here|by rewrite Hf].
  - intros (css & Hcss & Hv). by apply (main_loop_raises _ _ _ _ css).
Qed.

(** X17. The loop of [main] over the CSS files raises exactly when there
    is a CSS file and either the selectors of some CSS file cannot be
    extracted, or some HTML file cannot be opened, or some source file
    cannot be read; in particular, without a CSS file nothing is opened and
    the loop ends with the results it started with.  So [main] raises
    whenever the files collected from its arguments are such. *)
Theorem analysis_raises_iff `{ext : Externals} :
  (∀ (css_files : list string) (html_files src_files : gset string)
     (results : gmap string css_file_results),
     value (main_loop css_files html_files src_files results) = None
     ↔ css_files ≠ []
       ∧ ((∃ f, f ∈ css_files ∧ value (extract_css_selectors f) = None)
          ∨ (∃ f, f ∈ html_files ∧ value (open_BeautifulSoup f) = None)
          ∨ (∃ f, f ∈ src_files ∧ value (file_get_contents f) = None)))
  ∧ (∀ html_files src_files results,
       main_loop [] html_files src_files results = Ok results)
  ∧ (∀ args : list string,
       let css_files := collect_files args (Some [".css"]) in
       let html_files := collect_files args (Some [".html"]) in
       let src_files := collect_files args (Some [".php"; ".py"; ".rb"; ".js"]) in
       css_files ≠ ∅
       ∧ ((∃ f, f ∈ css_files ∧ value (extract_css_selectors f) = None)
          ∨ (∃ f, f ∈ html_files ∧ value (open_BeautifulSoup f) = None)
          ∨ (∃ f, f ∈ src_files ∧ value (file_get_contents f) = None))
       → value (main args) = None).
Proof.
  assert (Hloop : ∀ (css_files : list string) (html_files src_files : gset string)
            (results : gmap string css_file_results),
            value (main_loop css_files html_files src_files results) = None
            ↔ css_files ≠ []
              ∧ ((∃ f, f ∈ css_files ∧ value (extract_css_selectors f) = None)
                 ∨ (∃ f, f ∈ html_files ∧ value (open_BeautifulSoup f) = None)
                 ∨ (∃ f, f ∈ src_files ∧ value (file_get_contents f) = None))).
  { intros css_files html_files src_files results. rewrite main_loop_None.
    setoid_rewrite analyse_css_file_None. split.
    - intros (css & Hcss & Hv). split; [intros ->; by apply elem_of_nil in Hcss|].
      destruct Hv as [?|[?|?]]; eauto.
    - intros [Hne Hv]. destruct css_files as [|css css_files]; [done|].
      assert (css ∈ css :: css_files) by apply list_elem_of_here.
      destruct Hv as [(f & ? & ?)|[?|?]]; eauto. }
  split_and!; [exact Hloop|done|].
  intros args css_files html_files src_files [Hne Hv]. unfold main.
  fold css_files html_files src_files. apply Hloop. split.
  - intros Hnil. apply Hne. by apply elements_empty_inv, leibniz_equiv in Hnil.
  - by setoid_rewrite elem_of_elements.
Qed.

(** The site with one more HTML file, which is listed but cannot be opened. *)
Definition site_with_locked_html : Externals := {|
  Soup := @Soup Demo.site;
  Tag := @Tag Demo.site;
  open_BeautifulSoup := @open_BeautifulSoup Demo.site;
  soup_select := @soup_select Demo.site;
  open_read := @open_read Demo.site;
  parseFile := @parseFile Demo.site;
  isfile path := (@isfile Demo.site path || String.eqb path "locked.html")%bool;
  isdir := @isdir Demo.site;
  walk := @walk Demo.site;
  path_join := @path_join Demo.site;
  splitext_lower := @splitext_lower Demo.site
|}.

Lemma analysis_raises_iff_witness :
  value (@main site_with_locked_html ["site.css"; "locked.html"]) = None.
Proof.
  apply (proj2 (proj2 (@analysis_raises_iff site_with_locked_html))
           ["site.css"; "locked.html"]).
  split.
  - vm_compute. discriminate.
  - right. left. exists "locked.html". split; [vm_compute; reflexivity|reflexivity].
Defined.

(** ** The helper functions over the store *)

(** X18. Over the store, [get_occuring_words] and
    [get_matching_selectors_in_dom] change no object that exists: each makes
    one new set and returns the reference to it.  For words that are
    non-empty runs of letters and digits, the new set of
    [get_occuring_words] holds the given words that occur in the content as
    a whole word; the new set of [get_matching_selectors_in_dom] holds what
    the function computes from the value of its argument, and when the
    document cannot be opened nothing is made at all. *)
Theorem store_helpers_allocate `{ext : Externals}
    (σ : list (gset string)) (r : nat) (X : gset string) :
  σ !! r = Some X →
  ((∀ w, w ∈ X → w ≠ "" ∧ all_alnum w = true) →
   ∀ content, ∃ found,
     Store.get_occuring_words r content σ = (Ok (length σ), σ ++ [found])
     ∧ ∀ w, w ∈ found ↔ w ∈ X ∧ whole_word_in w content)
  ∧ (∀ html_file,
       Store.get_matching_selectors_in_dom r html_file σ
       = match get_matching_selectors_in_dom X html_file with
         | Ok found => (Ok (length σ), σ ++ [found])
         | Raise e => (Raise e, σ)
         end).
Proof.
  intros Hr. pose proof (lookup_lt_Some _ _ _ Hr) as Hlt. split.
  - intros Hwords content. eexists. split.
    + by rewrite get_occuring_words_run, Hr.
    + intros w. cbn [default from_option id].
      rewrite get_occuring_words_filter, elem_of_filter. split.
      * intros [Hs Hw]. destruct (Hwords w Hw) as [Hne Hal].
        split; [exact Hw|]. by apply re_search_word_spec.
      * intros [Hw Hs]. destruct (Hwords w Hw) as [Hne Hal].
        split; [|exact Hw]. by apply re_search_word_spec.
  - intros html_file. by rewrite get_matching_selectors_in_dom_run, Hr.
Qed.

Lemma store_helpers_allocate_witness :
  ∃ found,
    Store.get_occuring_words 0 "<ul id='nav'>" [{["nav"; "item"]}]
    = (Ok 1, [{["nav"; "item"]}] ++ [found])
    ∧ ∀ w, w ∈ found ↔ w ∈ ({["nav"; "item"]} : gset string)
                        ∧ whole_word_in w "<ul id='nav'>".
Proof.
  apply (proj1 (@store_helpers_allocate Demo.site [{["nav"; "item"]}] 0 {["nav"; "item"]}
                  eq_refl)).
  intros w Hw. apply elem_of_union in Hw as [Hw|Hw];
    apply elem_of_singleton in Hw as ->; (split; [discriminate|reflexivity]).
Defined.

(** X19. Over the store, the extraction changes no object that exists: it
    makes two new sets, [ids] and then [classes], which hold the ids and
    classes that the extraction computes from the value of its argument,
    and returns their references with the origin map. *)
Theorem store_extraction_allocates
    (σ : list (gset string)) (selectors : nat) (S : gset string) :
  σ !! selectors = Some S →
  Store.extract_ids_and_classes_from_selectors selectors σ
  = let '(ids, classes, origins) := extract_ids_and_classes_from_selectors S in
    (Ok (length σ, length σ + 1, origins), σ ++ [ids; classes]).
Proof.
  intros Hr. pose proof (lookup_lt_Some _ _ _ Hr) as Hlt.
  rewrite extract_ids_and_classes_from_selectors_run, Hr by done. simpl.
  by destruct (extract_ids_and_classes_from_selectors S) as [[ids classes] origins].
Qed.

Lemma store_extraction_allocates_witness :
  Store.extract_ids_and_classes_from_selectors 0 [{["#x"; "p.x"]}]
  = let '(ids, classes, origins) := extract_ids_and_classes_from_selectors {["#x"; "p.x"]} in
    (Ok (1, 1 + 1, origins), [{["#x"; "p.x"]}] ++ [ids; classes]).
Proof. apply (store_extraction_allocates [{["#x"; "p.x"]}] 0). reflexivity. Defined.

(** The references the grep stage records in its results. *)
Lemma grep_stage_run_refs `{ext : Externals} selectors src_files σ0 S :
  σ0 !! selectors = Some S →
  ∃ new res,
    Store._eliminate_selectors_from_idclass_grepping selectors src_files σ0
    = (res, σ0 ++ new)
    ∧ ∀ unused sdata, res = Ok (unused, sdata) →
        Store.ic_ids sdata = length σ0
        ∧ Store.ic_classes sdata = length σ0 + 1
        ∧ Store.ic_unfindable_ids sdata = length σ0 + 4
        ∧ Store.ic_unfindable_classes sdata = length σ0 + 5
        ∧ length σ0 + 5 < unused.
Proof.
  intros HS. pose proof (lookup_lt_Some _ _ _ HS) as Hlt.
  unfold Store._eliminate_selectors_from_idclass_grepping.
  rewrite bind_run, extract_ids_and_classes_from_selectors_run, HS by done.
  cbn [default from_option id]. cbv zeta.
  destruct (extract_ids_and_classes_from_selectors S) as [[ids classes] origins].
  cbn [fst snd]. cbv beta iota.
  rewrite bind_run, set_new_run, length_app, <- (assoc_L (++)).
  cbn [app length]. cbv beta iota.
  rewrite bind_run, set_new_run, length_app, <- (assoc_L (++)).
  cbn [app length]. cbv beta iota.
  rewrite bind_run, set_copy_run, lookup_middle_default, length_app, <- (assoc_L (++)).
  cbn [app length]. cbv beta iota.
  rewrite bind_run, set_copy_run, lookup_app_plus, length_app, <- (assoc_L (++)).
  cbn [app length lookup list_lookup default from_option id]. cbv beta iota.
  destruct (grep_loop_run src_files σ0 ids classes
              (Build_grep_state ∅ ∅ ids classes) []) as (st' & g' & Hrun & _).
  unfold grep_store in Hrun.
  cbn [findable_ids findable_classes unfindable_ids unfindable_classes] in Hrun.
  rewrite bind_run, Hrun. clear Hrun.
  destruct (grep_loop _ src_files) as [st|e]; cbv beta iota.
  2:{ eexists _, _. split; [reflexivity|]. by intros ?? [=]. }
  set (L := ids :: classes :: _ :: _ :: _ :: _ :: g').
  assert (HL : 5 < length L) by (subst L; simpl; lia).
  rewrite bind_run, set_new_run. cbv beta iota.
  unfold Store.for_members.
  rewrite bind_run, bind_run, read_run, read_behind by lia. cbv beta iota.
  rewrite for_each_update_list.
  rewrite bind_run, bind_run, read_run, read_behind by lia. cbv beta iota.
  rewrite for_each_update_list.
  rewrite bind_run, set_difference_run. cbv beta iota.
  rewrite bind_run, read_run. cbv beta iota. rewrite ret_run.
  rewrite <- !(assoc_L (++)).
  eexists _, _. split; [reflexivity|].
  intros unused sdata [= <- <-]. simpl.
  split_and!; try done.
  rewrite length_app. cbn [length]. rewrite length_app. cbn [length]. lia.
Qed.

(** X20. The objects in the results of the grep stage over the store: the
    input, the sets recorded as [ids], [classes], [unfindable_ids] and
    [unfindable_classes], and the set returned are six different objects;
    at the return each holds the set of the same name that the stage
    computes from the value of the input.  So [ids] still holds every id
    although the scan removes the ids it finds from [unfindable_ids], which
    is a copy. *)
Theorem grep_stage_result_objects `{ext : Externals}
    (σ : list (gset string)) (selectors : nat) (S : gset string) (src_files : list string)
    (unused : nat) (sdata : Store.idclass_results) (σ' : list (gset string)) :
  σ !! selectors = Some S →
  Store._eliminate_selectors_from_idclass_grepping selectors src_files σ
  = (Ok (unused, sdata), σ') →
  NoDup [selectors; Store.ic_ids sdata; Store.ic_classes sdata;
         Store.ic_unfindable_ids sdata; Store.ic_unfindable_classes sdata; unused]
  ∧ ∃ remaining data,
      _eliminate_selectors_from_idclass_grepping S src_files = Ok (remaining, data)
      ∧ σ' !! selectors = Some S
      ∧ σ' !! unused = Some remaining
      ∧ σ' !! Store.ic_ids sdata = Some (ic_ids data)
      ∧ σ' !! Store.ic_classes sdata = Some (ic_classes data)
      ∧ σ' !! Store.ic_unfindable_ids sdata = Some (ic_unfindable_ids data)
      ∧ σ' !! Store.ic_unfindable_classes sdata = Some (ic_unfindable_classes data)
      ∧ Store.ic_unused_selectors sdata = ic_unused_selectors data.
Proof.
  intros HS Hrun. pose proof (lookup_lt_Some _ _ _ HS) as Hlt. split.
  - destruct (grep_stage_run_refs selectors src_files σ S HS) as (new & res & Heq & Hrefs).
    rewrite Hrun in Heq. injection Heq as <- ->.
    destruct (Hrefs unused sdata eq_refl) as (-> & -> & -> & -> & Hu).
    repeat (apply NoDup_cons; split; [set_unfold; lia|]). apply NoDup_nil_2.
  - destruct (grep_stage_run selectors src_files σ S HS) as (new & res & Heq & Hres).
    rewrite Hrun in Heq. injection Heq as <- ->.
    destruct (_eliminate_selectors_from_idclass_grepping S src_files)
      as [[remaining data]|e]; [|done].
    destruct Hres as (u & sd & [= <- <-] & _ & ? & ? & ? & ? & ? & ?).
    exists remaining, data. split_and!; try done. by rewrite lookup_app_l.
Qed.

Lemma grep_stage_result_objects_witness :
  NoDup [0; 1; 2; 5; 6; 10]
  ∧ ∃ remaining data,
      @_eliminate_selectors_from_idclass_grepping Demo.site {["#nav .item"; ".item"]}
        ["app.js"] = Ok (remaining, data)
      ∧ [({["#nav .item"; ".item"]} : gset string); {["nav"]}; {["item"]}; {["nav"]}; ∅; ∅;
         {["item"]}; {["nav"]}; ∅; {["#nav .item"]}; {[".item"]}] !! 0
        = Some {["#nav .item"; ".item"]}
      ∧ [({["#nav .item"; ".item"]} : gset string); {["nav"]}; {["item"]}; {["nav"]}; ∅; ∅;
         {["item"]}; {["nav"]}; ∅; {["#nav .item"]}; {[".item"]}] !! 10 = Some remaining
      ∧ [({["#nav .item"; ".item"]} : gset string); {["nav"]}; {["item"]}; {["nav"]}; ∅; ∅;
         {["item"]}; {["nav"]}; ∅; {["#nav .item"]}; {[".item"]}] !! 1
        = Some (ic_ids data)
      ∧ [({["#nav .item"; ".item"]} : gset string); {["nav"]}; {["item"]}; {["nav"]}; ∅; ∅;
         {["item"]}; {["nav"]}; ∅; {["#nav .item"]}; {[".item"]}] !! 2
        = Some (ic_classes data)
      ∧ [({["#nav .item"; ".item"]} : gset string); {["nav"]}; {["item"]}; {["nav"]}; ∅; ∅;
         {["item"]}; {["nav"]}; ∅; {["#nav .item"]}; {[".item"]}] !! 5
        = Some (ic_unfindable_ids data)
      ∧ [({["#nav .item"; ".item"]} : gset string); {["nav"]}; {["item"]}; {["nav"]}; ∅; ∅;
         {["item"]}; {["nav"]}; ∅; {["#nav .item"]}; {[".item"]}] !! 6
        = Some (ic_unfindable_classes data)
      ∧ [".item"] = ic_unused_selectors data.
Proof.
  apply (@grep_stage_result_objects Demo.site [{["#nav .item"; ".item"]}] 0
           {["#nav .item"; ".item"]} ["app.js"] 10
           {| Store.ic_ids := 1; Store.ic_classes := 2; Store.ic_unfindable_ids := 5;
              Store.ic_unfindable_classes := 6; Store.ic_unused_selectors := [".item"] |}).
  - reflexivity.
  - vm_compute. reflexivity.
Defined.
